(** * firmware_diff.py: a shallow embedding and its verified properties

    The program compares two directory trees by content hash.  It has four
    functions, [walk], [calc_md5], [get_file_hashes] and [differ], a [main]
    that chains them and a command-line guard.  Each is embedded below next
    to the environment it talks to: a file system, the [hashlib] streaming
    hash object, Python's [dict], [set], [sorted] and standard output.

    Conventions of the embedding:
    - a [pathlib.Path] is the list of its parts;
    - a Python [str] is a [string], the bytes of its UTF-8 form; [str]
      comparison is the comparison of [String.compare], character code by
      character code, which on UTF-8 is the order of code points;
    - paths are POSIX paths: the separator is the slash;
    - a raised exception is the [Raise] outcome of the [res] monad;
    - a [dict] is an association list in insertion order, which is the order
      Python iterates it in;
    - standard output is the list of the values printed, oldest first. *)

From Stdlib Require Import Ascii List Arith Lia.
From stdpp Require Import base option list strings gmap sorting.
From Equations Require Import Equations.

Set Warnings "-abstract-large-number,-register-all,-clear-no-such-hyp".

(** ** Exceptions and outcomes *)

(** The exceptions the program can meet.  None of them is caught anywhere in
    the source, so each one ends the run. *)
Inductive exn : Type :=
| FileNotFoundError
| NotADirectoryError
| IsADirectoryError
| PermissionError
| OSError
| ValueError
| KeyError
| IndexError.

Inductive res (A : Type) : Type :=
| Ok (a : A)
| Raise (e : exn).
Arguments Ok {A} a.
Arguments Raise {A} e.

#[global] Instance res_ret : MRet res := fun A a => Ok a.
#[global] Instance res_bind : MBind res := fun A B f m =>
  match m with
  | Ok a => f a
  | Raise e => Raise e
  end.
#[global] Instance res_fmap : FMap res := fun A B f m =>
  match m with
  | Ok a => Ok (f a)
  | Raise e => Raise e
  end.

Definition is_ok {A} (m : res A) : bool :=
  match m with Ok _ => true | Raise _ => false end.

(** [for x in l: acc = body(acc, x)] where the body may raise. *)
Fixpoint for_each {A St : Type} (body : St -> A -> res St) (l : list A)
  (acc : St) : res St :=
  match l with
  | [] => Ok acc
  | x :: l' => acc' ← body acc x; for_each body l' acc'
  end.

(** A list comprehension [[f x for x in l]] whose element expression may
    raise. *)
Fixpoint comprehension {A B : Type} (f : A -> res B) (l : list A)
  : res (list B) :=
  match l with
  | [] => Ok []
  | x :: l' => y ← f x; ys ← comprehension f l'; Ok (y :: ys)
  end.

(** ** The hasher *)

Definition bytes : Type := list Byte.byte.

#[global] Instance byte_eq_dec : EqDecision Byte.byte := Byte.byte_eq_dec.

(** The [hashlib] hash object: [md5()] makes a fresh one, [update] feeds it,
    [hexdigest] reads it out.  The library is not part of the program; it is
    an interface here. *)
Class StreamHash : Type := {
  hash_obj : Type;
  md5 : hash_obj;
  update : hash_obj -> bytes -> hash_obj;
  hexdigest : hash_obj -> string
}.

(** What [hashlib] documents about [update]: repeated calls are equivalent to
    one call with the concatenation of the arguments, and feeding nothing
    changes nothing. *)
Record StreamHashLaws (H : StreamHash) : Prop := {
  update_app : forall (h : hash_obj) (a b : bytes),
    update (update h a) b = update h (a ++ b);
  update_nil : forall h : hash_obj, update h [] = h
}.

(** [f.read(size)] on a file opened in binary mode: the next [size] bytes, or
    what is left of the file when that is less.  The state of the open file
    is the part not read yet. *)
Definition read (size : nat) (f : bytes) : bytes * bytes :=
  (take size f, drop size f).

Definition inspect {A : Type} (a : A) : {b : A | a = b} := exist _ a eq_refl.

(** The loop of [calc_md5]:
    [while chunk := f.read(size): hash.update(chunk)].
    An empty chunk is falsy and ends the loop. *)
Equations hash_loop {H : StreamHash} (size : nat) (hash : hash_obj) (f : bytes)
  : hash_obj by wf (length f) lt :=
  hash_loop size hash f with inspect (read size f) := {
    | exist _ ([], _) _ => hash
    | exist _ (c :: cs, rest) E => hash_loop size (update hash (c :: cs)) rest
  }.
Next Obligation.
  match goal with E : take ?size ?f = _ |- _ =>
    rewrite length_drop; destruct size; [discriminate|];
    destruct f; [discriminate|]; simpl; lia
  end.
Qed.

(** The chunk size the source reads with. *)
Definition CHUNK : nat := 8192.

(** ** The file system *)

(** A path is the list of its parts, as [pathlib] keeps it. *)
Definition Path : Type := list string.

(** What a directory entry can be.  A regular file has content, or cannot be
    opened; a directory lists its entries in the order the operating system
    returns them, or cannot be listed; a symbolic link names its target by a
    path from the root of the file system; everything else (devices,
    sockets, FIFOs) is [Other].  The tree is a snapshot: it does not change
    while the program runs. *)
Inductive node : Type :=
| File (content : option bytes)
| Dir (readable : bool) (entries : list (string * node))
| Symlink (target : Path)
| Other.

(** The entry called [name] of a listing. *)
Fixpoint lookup_entry (name : string) (entries : list (string * node))
  : option node :=
  match entries with
  | [] => None
  | (n, x) :: entries' =>
      if String.eqb n name then Some x else lookup_entry name entries'
  end.

(** The entry [name] of [cur], with the link itself when it is one. *)
Definition child (cur : node) (name : string) : option node :=
  match cur with
  | Dir _ entries => lookup_entry name entries
  | _ => None
  end.

(** One step of path resolution: a link met on the way is replaced by what
    [follow] resolves its target to. *)
Definition step (follow : Path -> option node) (cur : node) (name : string)
  : option node :=
  match child cur name with
  | Some (Symlink target) => follow target
  | o => o
  end.

(** [os.stat]: resolution that follows every link, nested at most [hops]
    deep (the operating system gives up on longer chains). *)
Fixpoint stat_hops (hops : nat) (fs : node) (p : Path) : option node :=
  let follow : Path -> option node :=
    match hops with
    | 0 => fun _ => None
    | S h => stat_hops h fs
    end in
  fold_left (fun cur name => cur ≫= fun d => step follow d name) p (Some fs).

Definition MAXSYMLINKS : nat := 40.

Definition stat (fs : node) (p : Path) : option node :=
  stat_hops MAXSYMLINKS fs p.

(** [os.lstat]: like [stat], but a link in last position is not followed. *)
Definition lstat (fs : node) (p : Path) : option node :=
  match reverse p with
  | [] => Some fs
  | name :: parent => stat fs (reverse parent) ≫= fun d => child d name
  end.

(** [Path.is_symlink], [Path.is_file], [Path.is_dir].  The last two follow
    links, and all three answer [False] for a path that does not resolve. *)
Definition is_symlink (fs : node) (p : Path) : bool :=
  match lstat fs p with Some (Symlink _) => true | _ => false end.

Definition is_file (fs : node) (p : Path) : bool :=
  match stat fs p with Some (File _) => true | _ => false end.

Definition is_dir (fs : node) (p : Path) : bool :=
  match stat fs p with Some (Dir _ _) => true | _ => false end.

(** [Path.iterdir]: the children of a directory, each as the directory's path
    extended by the entry's name. *)
Definition iterdir (fs : node) (dir_path : Path) : res (list Path) :=
  match stat fs dir_path with
  | None => Raise FileNotFoundError
  | Some (Dir true entries) => Ok ((fun e => dir_path ++ [e.1]) <$> entries)
  | Some (Dir false _) => Raise PermissionError
  | Some _ => Raise NotADirectoryError
  end.

(** ** [walk] *)

(** The body of the [for] loop of [walk], over the elements that are left,
    with [file_list] as built so far.  [rec] is the recursive call; it gives
    [None] when the recursion budget is spent. *)
Fixpoint walk_loop (fs : node) (rec : Path -> option (res (list Path)))
  (elements : list Path) (file_list : list Path) : option (res (list Path)) :=
  match elements with
  | [] => Some (Ok file_list)
  | element :: elements' =>
      if is_symlink fs element then walk_loop fs rec elements' file_list
      else
        let file_list :=
          if is_file fs element then file_list ++ [element] else file_list in
        if is_dir fs element then
          match rec element with
          | Some (Ok sub) => walk_loop fs rec elements' (file_list ++ sub)
          | Some (Raise e) => Some (Raise e)
          | None => None
          end
        else walk_loop fs rec elements' file_list
  end.

(** [walk(dir_path)].  Python recurses without a bound of the program's own;
    [fuel] is the depth of recursion allowed, and [None] means it ran out. *)
Fixpoint walk (fuel : nat) (fs : node) (dir_path : Path)
  : option (res (list Path)) :=
  match fuel with
  | 0 => None
  | S fuel' =>
      match iterdir fs dir_path with
      | Raise e => Some (Raise e)
      | Ok elements => walk_loop fs (walk fuel' fs) elements []
      end
  end.

(** ** [calc_md5] *)

(** [file_path.open("rb")] then the read loop.  Opening fails on a path that
    does not resolve, on a directory, on a file without read permission and
    on an entry that is no regular file. *)
Definition open_rb (fs : node) (file_path : Path) : res bytes :=
  match stat fs file_path with
  | None => Raise FileNotFoundError
  | Some (File (Some content)) => Ok content
  | Some (File None) => Raise PermissionError
  | Some (Dir _ _) => Raise IsADirectoryError
  | Some _ => Raise OSError
  end.

Definition calc_md5 {H : StreamHash} (fs : node) (file_path : Path)
  : res string :=
  f ← open_rb fs file_path;
  Ok (hexdigest (hash_loop CHUNK md5 f)).

(** ** Paths and strings *)

(** [str(path)] for a relative path: its parts joined by a slash, and a dot
    for the path without parts. *)
Definition str (p : Path) : string :=
  match p with
  | [] => "."
  | _ => String.concat "/" p
  end.

(** [file.relative_to(root)]: the parts of [file] after those of [root], and
    [ValueError] when [root] is not a prefix of [file]. *)
Fixpoint relative_to (file root : Path) : res Path :=
  match root, file with
  | [], _ => Ok file
  | r :: root', f :: file' =>
      if String.eqb r f then relative_to file' root' else Raise ValueError
  | _ :: _, [] => Raise ValueError
  end.

(** Cutting a string at its slashes: the part before the first slash, and
    the parts after it. *)
Fixpoint split_slash (s : string) : string * list string :=
  match s with
  | EmptyString => (EmptyString, [])
  | String c s' =>
      let '(hd, tl) := split_slash s' in
      if Ascii.eqb c "/" then (EmptyString, hd :: tl) else (String c hd, tl)
  end.

(** [Path(s)]: the parts of [s], without the empty ones and the dots.  The
    working directory is the root of the file system, so that a leading
    slash changes nothing; a part of two dots is kept, as [pathlib] keeps
    it, and is looked up like any other name. *)
Definition Path_of_str (s : string) : Path :=
  let '(hd, tl) := split_slash s in
  filter (fun part => part ≠ "" ∧ part ≠ ".") (hd :: tl).

(** [l[i]] with Python's [IndexError]. *)
Definition index {A : Type} (l : list A) (i : nat) : res A :=
  match l !! i with
  | Some x => Ok x
  | None => Raise IndexError
  end.

(** ** Dictionaries *)

(** [d[key] = v]: the value is replaced where the key is, and a new key goes
    to the end. *)
Fixpoint dict_set {V : Type} (key : string) (v : V) (d : list (string * V))
  : list (string * V) :=
  match d with
  | [] => [(key, v)]
  | (k, w) :: d' =>
      if String.eqb k key then (k, v) :: d' else (k, w) :: dict_set key v d'
  end.

Fixpoint dict_get {V : Type} (key : string) (d : list (string * V))
  : option V :=
  match d with
  | [] => None
  | (k, w) :: d' => if String.eqb k key then Some w else dict_get key d'
  end.

(** [{k: f(k) for k in l}]. *)
Definition dict_comprehension {V : Type} (f : string -> V) (l : list string)
  : list (string * V) :=
  fold_left (fun d k => dict_set k (f k) d) l [].

Definition keys {V : Type} (d : list (string * V)) : list string := d.*1.

(** ** [get_file_hashes] *)

(** The value [[hashA, hashB]] kept for a file name: two slots, each [None]
    or a digest. *)
Definition hashes : Type := option string * option string.

Definition hash_dict : Type := list (string * hashes).

(** [l[i] = checksum] on the two slots. *)
Definition set_slot (i : nat) (checksum : string) (v : hashes) : res hashes :=
  match i with
  | 0 => Ok (Some checksum, v.2)
  | 1 => Ok (v.1, Some checksum)
  | _ => Raise IndexError
  end.

(** [file_hashes[key][i] = checksum]: the key is looked up first, and a
    missing key is a [KeyError]. *)
Fixpoint set_hash (i : nat) (key : string) (checksum : string) (d : hash_dict)
  : res hash_dict :=
  match d with
  | [] => Raise KeyError
  | (k, v) :: d' =>
      if String.eqb k key
      then v' ← set_slot i checksum v; Ok ((k, v') :: d')
      else d'' ← set_hash i key checksum d'; Ok ((k, v) :: d'')
  end.

(** [sorted(file_names)] on a set of strings. *)
Definition sorted (file_names : gset string) : list string :=
  merge_sort String.le (elements file_names).

(** [str(file.relative_to(roots[i]))]. *)
Definition file_name (roots : list Path) (i : nat) (file : Path) : res string :=
  root ← index roots i; rel ← relative_to file root; Ok (str rel).

(** One of the two [for] loops that fill the slots: hash the file, then store
    the checksum under the file's name. *)
Definition fill {H : StreamHash} (fs : node) (roots : list Path) (i : nat)
  (file_hashes : hash_dict) (file : Path) : res hash_dict :=
  checksum ← calc_md5 fs file;
  name ← file_name roots i file;
  set_hash i name checksum file_hashes.

Definition get_file_hashes {H : StreamHash} (fs : node)
  (file_paths_a file_paths_b : list Path) (roots : list Path) : res hash_dict :=
  dir_a_file_names ← comprehension (file_name roots 0) file_paths_a;
  dir_b_file_names ← comprehension (file_name roots 1) file_paths_b;
  let file_names : gset string :=
    list_to_set dir_a_file_names ∪ list_to_set dir_b_file_names in
  let file_names := sorted file_names in
  let file_hashes : hash_dict :=
    dict_comprehension (fun _ => (None, None)) file_names in
  file_hashes ← for_each (fill fs roots 0) file_paths_a file_hashes;
  for_each (fill fs roots 1) file_paths_b file_hashes.

(** ** [differ] *)

Inductive change_type : Type := Added | Removed | Modified.

(** The record stored per changed file:
    [{"Change type": .., "First hash": .., "Second hash": ..}]. *)
Record change : Type := Change {
  kind : change_type;
  first_hash : option string;
  second_hash : option string
}.

Definition change_dict : Type := list (string * change).

(** The body of the loop of [differ] for one entry of the dictionary: the
    three tests, in the order of the source. *)
Definition classify (v : hashes) : option change :=
  match v.1 with
  | None => Some (Change Added v.1 v.2)
  | Some h0 =>
      match v.2 with
      | None => Some (Change Removed v.1 v.2)
      | Some h1 =>
          if String.eqb h0 h1 then None else Some (Change Modified v.1 v.2)
      end
  end.

(** The dictionary [changes] that [differ] builds.  The loop runs over the
    keys of [file_hashes_dict] and reads [file_hashes_dict[entry]]; the key
    comes from the dictionary itself, so the look-up finds it. *)
Definition differ_changes (file_hashes_dict : hash_dict) : change_dict :=
  fold_left
    (fun changes entry =>
       match dict_get entry file_hashes_dict ≫= classify with
       | Some c => dict_set entry c changes
       | None => changes
       end)
    (keys file_hashes_dict) [].

(** ** Standard output, [main] and the command-line guard *)

(** What can be written to standard output: a line of text by [print], or a
    dictionary of changes by [pprint]. *)
Inductive printed : Type :=
| Line (s : string)
| Pretty (changes : change_dict).

(** A run threads what has been printed so far, ends with a value or an
    exception, and is [None] when the recursion budget of [walk] ran out. *)
Definition io (A : Type) : Type :=
  list printed -> option (list printed * res A).

#[global] Instance io_ret : MRet io := fun A a out => Some (out, Ok a).
#[global] Instance io_bind : MBind io := fun A B f m out =>
  match m out with
  | Some (out', Ok a) => f a out'
  | Some (out', Raise e) => Some (out', Raise e)
  | None => None
  end.

Definition lift {A : Type} (m : res A) : io A := fun out => Some (out, m).

Definition lift_fuel {A : Type} (m : option (res A)) : io A :=
  fun out => (fun r => (out, r)) <$> m.

Definition print (s : string) : io unit :=
  fun out => Some (out ++ [Line s], Ok tt).

(** [pprint] shows a dictionary with its keys in sorted order. *)
Definition sort_items (changes : change_dict) : change_dict :=
  merge_sort (fun x y => String.le x.1 y.1) changes.

Definition pprint (changes : change_dict) : io unit :=
  fun out => Some (out ++ [Pretty (sort_items changes)], Ok tt).

Definition differ (file_hashes_dict : hash_dict) : io unit :=
  pprint (differ_changes file_hashes_dict).

Definition main {H : StreamHash} (fuel : nat) (fs : node) (argv : list string)
  : io unit :=
  root_a ← lift (Path_of_str <$> index argv 1);
  root_b ← lift (Path_of_str <$> index argv 2);
  dir_a_files ← lift_fuel (walk fuel fs root_a);
  dir_b_files ← lift_fuel (walk fuel fs root_b);
  hash_dict ←
    lift (get_file_hashes fs dir_a_files dir_b_files [root_a; root_b]);
  differ hash_dict.

Definition USAGE : string :=
  "USAGE: firmware_diff.py <Older firmware fs dir> <Newer firmware fs dir>".

(** The guard under [if __name__ == "__main__"]. *)
Definition program {H : StreamHash} (fuel : nat) (fs : node)
  (argv : list string) : io unit :=
  if decide (length argv ≠ 3) then print USAGE else main fuel fs argv.

(** ** A concrete hasher and concrete trees, for examples *)

(** A hash object that simply keeps what it was fed, and shows it as text. *)
Definition echo_hash : StreamHash := {|
  hash_obj := bytes;
  md5 := [];
  update := fun h b => h ++ b;
  hexdigest := String.string_of_list_byte
|}.

Definition bytes_of (s : string) : bytes := String.list_byte_of_string s.

(** The first scenario of the specification under two roots [A] and [B],
    with a link, a FIFO and a link cycle added to [A]. *)
Definition example_fs : node :=
  Dir true
    [("A", Dir true
        [("a.bin", File (Some (bytes_of "1")));
         ("b.bin", File (Some (bytes_of "2")));
         ("loop", Symlink ["A"]);
         ("alias", Symlink ["A"; "a.bin"]);
         ("fifo", Other);
         ("sub", Dir true [("d.bin", File (Some (bytes_of "5")))])]);
     ("B", Dir true
        [("c.bin", File (Some (bytes_of "4")));
         ("b.bin", File (Some (bytes_of "3")));
         ("a.bin", File (Some (bytes_of "1")))])].

(** What [walk] lists under the two roots, and the dictionary
    [get_file_hashes] merges them into. *)
Definition example_files_a : list Path :=
  [["A"; "a.bin"]; ["A"; "b.bin"]; ["A"; "sub"; "d.bin"]].

Definition example_files_b : list Path :=
  [["B"; "c.bin"]; ["B"; "b.bin"]; ["B"; "a.bin"]].

Definition example_merged : hash_dict :=
  [("a.bin", (Some "1", Some "1"));
   ("b.bin", (Some "2", Some "3"));
   ("c.bin", (None, Some "4"));
   ("sub/d.bin", (Some "5", None))].

(** A second hash object, with a state of its own: 64-bit FNV-1a, shown as
    sixteen hexadecimal digits. *)
Definition fnv_step (h : N) (x : Byte.byte) : N :=
  ((N.lxor h (Byte.to_N x) * 1099511628211) mod 2 ^ 64)%N.

Definition hex_digit (n : N) : ascii :=
  match String.get (N.to_nat n) "0123456789abcdef" with
  | Some c => c
  | None => "?"%char
  end.

Fixpoint hex_go (digits : nat) (x : N) (acc : string) : string :=
  match digits with
  | 0 => acc
  | S k => hex_go k (x / 16)%N (String (hex_digit (x mod 16)%N) acc)
  end.

Definition fnv1a : StreamHash := {|
  hash_obj := N;
  md5 := 14695981039346656037%N;
  update := fun h data => fold_left fnv_step data h;
  hexdigest := fun h => hex_go 16 h ""
|}.

(** A tree with a directory that cannot be listed and a file that cannot be
    opened. *)
Definition locked_fs : node :=
  Dir true
    [("A", Dir true
        [("secret", Dir false [("k", File (Some (bytes_of "9")))])]);
     ("B", Dir true [("x.bin", File None)]);
     ("C", Dir true [])].

(** What the program prints for the example tree. *)
Definition example_output : list printed :=
  [Pretty
     [("b.bin", Change Modified (Some "af63af4c8601a015")
                               (Some "af63ae4c86019e62"));
      ("c.bin", Change Added None (Some "af63a94c860195e3"));
      ("sub/d.bin", Change Removed (Some "af63a84c86019430") None)]].

(** ** Notions used to state the properties *)

(** The height of a tree: the longest chain of nested directories. *)
Fixpoint height (n : node) : nat :=
  match n with
  | Dir _ entries =>
      S ((fix go (es : list (string * node)) : nat :=
            match es with
            | [] => 0
            | (_, x) :: es' => Nat.max (height x) (go es')
            end) entries)
  | _ => 0
  end.

(** [genuine fs dir rel]: below [dir], the parts of [rel] name real
    directories one inside the other, and the last one a regular file; no
    part is a link or an entry of another type. *)
Inductive genuine (fs : node) : Path -> Path -> Prop :=
| genuine_file (dir : Path) (name : string) (content : option bytes) :
    lstat fs (dir ++ [name]) = Some (File content) ->
    genuine fs dir [name]
| genuine_dir (dir : Path) (name : string) (r : bool)
    (entries : list (string * node)) (rel : Path) :
    lstat fs (dir ++ [name]) = Some (Dir r entries) ->
    genuine fs (dir ++ [name]) rel ->
    genuine fs dir (name :: rel).

(** The checksum stored last under [name] in a list of (name, checksum)
    pairs, if there is one: a later assignment to a slot overwrites an
    earlier one. *)
Fixpoint last_named (name : string) (pairs : list (string * string))
  : option string :=
  match pairs with
  | [] => None
  | (n, c) :: pairs' =>
      match last_named name pairs' with
      | Some c' => Some c'
      | None => if String.eqb n name then Some c else None
      end
  end.

(** The names and checksums of a list of files, in the order of the list. *)
Definition named_checksums {H : StreamHash} (fs : node) (roots : list Path)
  (i : nat) (files : list Path) : res (list (string * string)) :=
  comprehension
    (fun file =>
       checksum ← calc_md5 fs file;
       name ← file_name roots i file;
       Ok (name, checksum))
    files.

(** The outer join of two lists of (name, checksum) pairs: one entry per
    name of either list, in sorted order, with the checksum of each side or
    [None]. *)
Definition outer_join (pa pb : list (string * string)) : hash_dict :=
  (fun name => (name, (last_named name pa, last_named name pb))) <$>
    sorted (list_to_set pa.*1 ∪ list_to_set pb.*1).

(** The change record of every entry of a dictionary, in its order. *)
Definition changes_of (d : hash_dict) : change_dict :=
  omap (fun e => (fun c => (e.1, c)) <$> classify e.2) d.

(** Slot [i] of a value after an optional assignment to it. *)
Definition put (i : nat) (o : option string) (v : hashes) : hashes :=
  match o with
  | None => v
  | Some c => match i with 0 => (Some c, v.2) | _ => (v.1, Some c) end
  end.

(** Lexicographic order on strings, strict: a proper prefix comes first, and
    otherwise the first character that differs decides, by its code. *)
Inductive lex_lt : string -> string -> Prop :=
| lex_lt_nil (c : ascii) (t : string) : lex_lt EmptyString (String c t)
| lex_lt_head (a c : ascii) (s t : string) :
    (N_of_ascii a < N_of_ascii c)%N -> lex_lt (String a s) (String c t)
| lex_lt_tail (a : ascii) (s t : string) :
    lex_lt s t -> lex_lt (String a s) (String a t).

(** *** Well-formed trees and trees listed in another order *)

Fixpoint slash_free (s : string) : bool :=
  match s with
  | EmptyString => true
  | String c s' => negb (Ascii.eqb c "/") && slash_free s'
  end.

(** No entry of the listing is called [name]. *)
Fixpoint fresh (name : string) (entries : list (string * node)) : bool :=
  match entries with
  | [] => true
  | (n, _) :: entries' => negb (String.eqb n name) && fresh name entries'
  end.

(** A tree as a file system keeps it: in every directory the names are
    distinct and contain no slash. *)
Fixpoint wf_node (n : node) : bool :=
  match n with
  | Dir _ entries =>
      (fix go (es : list (string * node)) : bool :=
         match es with
         | [] => true
         | (name, x) :: es' =>
             slash_free name && fresh name es' && wf_node x && go es'
         end) entries
  | _ => true
  end.

(** [reordered n n']: the two trees hold the same entries under the same
    names, and differ at most in the order in which their directories list
    them. *)
Fixpoint reordered (n n' : node) : bool :=
  match n, n' with
  | File c, File c' => bool_decide (c = c')
  | Symlink t, Symlink t' => bool_decide (t = t')
  | Other, Other => true
  | Dir r es, Dir r' es' =>
      Bool.eqb r r' && Nat.eqb (length es) (length es') &&
      (fix go (l : list (string * node)) : bool :=
         match l with
         | [] => true
         | (name, x) :: l' =>
             match lookup_entry name es' with
             | Some x' => reordered x x'
             | None => false
             end && go l'
         end) es
  | _, _ => false
  end.

(** The results of the iterations of a loop, one after the other; the first
    exception ends it. *)
Fixpoint gather {A : Type} (f : A -> res (list Path)) (l : list A)
  : res (list Path) :=
  match l with
  | [] => Ok []
  | x :: l' => here ← f x; rest ← gather f l'; Ok (here ++ rest)
  end.

(** The files below a directory, by recursion on the tree itself: regular
    files are kept, directories are entered, the rest is passed over. *)
Fixpoint collect (dir_path : Path) (n : node) : res (list Path) :=
  match n with
  | Dir true entries =>
      gather
        (fun e =>
           match e.2 with
           | File _ => Ok [dir_path ++ [e.1]]
           | Dir _ _ => collect (dir_path ++ [e.1]) e.2
           | _ => Ok []
           end)
        entries
  | Dir false _ => Raise PermissionError
  | _ => Raise NotADirectoryError
  end.

(** Two outcomes that agree up to the order of the list: both lists, one a
    permutation of the other, or both exceptions. *)
Definition res_perm {A : Type} (r r' : res (list A)) : Prop :=
  match r, r' with
  | Ok l, Ok l' => l ≡ₚ l'
  | Raise _, Raise _ => True
  | _, _ => False
  end.

(** The example tree with its directories listed in another order. *)
Definition example_fs_reordered : node :=
  Dir true
    [("B", Dir true
        [("a.bin", File (Some (bytes_of "1")));
         ("b.bin", File (Some (bytes_of "3")));
         ("c.bin", File (Some (bytes_of "4")))]);
     ("A", Dir true
        [("sub", Dir true [("d.bin", File (Some (bytes_of "5")))]);
         ("fifo", Other);
         ("alias", Symlink ["A"; "a.bin"]);
         ("b.bin", File (Some (bytes_of "2")));
         ("loop", Symlink ["A"]);
         ("a.bin", File (Some (bytes_of "1")))])].

(** Two results of a look-up that agree up to the order of listings. *)
Definition same_entry (o o' : option node) : Prop :=
  match o, o' with
  | Some d, Some d' => reordered d d' = true
  | None, None => True
  | _, _ => False
  end.

(** The files below the directory a path resolves to. *)
Definition collect_at (fs : node) (dir_path : Path) : res (list Path) :=
  match stat fs dir_path with
  | None => Raise FileNotFoundError
  | Some d => collect dir_path d
  end.

(** A list of (name, checksum) pairs gives each name one checksum. *)
Definition functional (pairs : list (string * string)) : Prop :=
  forall n c c', (n, c) ∈ pairs -> (n, c') ∈ pairs -> c = c'.

(** ** Further notions and examples *)

(** A hash object that records every call of [update]: its state is the list
    of the chunks it was fed, in order. *)
Definition log_hash : StreamHash := {|
  hash_obj := list bytes;
  md5 := [];
  update := fun h chunk => h ++ [chunk];
  hexdigest := fun h => String.string_of_list_byte (concat h)
|}.

(** A change seen from the other side: Added and Removed trade places, and so
    do the two hashes. *)
Definition mirror (c : change) : change :=
  Change
    match kind c with
    | Added => Removed
    | Removed => Added
    | Modified => Modified
    end
    (second_hash c) (first_hash c).

(** The two slots of every entry, exchanged. *)
Definition swap_slots (d : hash_dict) : hash_dict :=
  (fun e => (e.1, (e.2.2, e.2.1))) <$> d.

(** Every directory reached from [n] through directories can be listed. *)
Fixpoint listable (n : node) : bool :=
  match n with
  | Dir r entries =>
      r && (fix go (es : list (string * node)) : bool :=
              match es with
              | [] => true
              | (_, x) :: es' => listable x && go es'
              end) entries
  | _ => true
  end.

(** The example tree with a link [L] to the directory [A] beside it. *)
Definition linked_fs : node :=
  Dir true
    [("L", Symlink ["A"]);
     ("A", Dir true
        [("a.bin", File (Some (bytes_of "1")));
         ("sub", Dir true [("d.bin", File (Some (bytes_of "5")))])])].


(** * Properties *)

(** ** The hasher: chunking does not change the digest *)

Section hasher.
Context {H : StreamHash}.

(** The loop, unfolded once. *)
Lemma hash_loop_once (size : nat) (hash : hash_obj) (f : bytes) :
  hash_loop size hash f =
  match (read size f).1 with
  | [] => hash
  | chunk => hash_loop size (update hash chunk) (read size f).2
  end.
Proof.
  funelim (hash_loop size hash f); simpl;
    match goal with E : take _ _ = _ |- _ => by rewrite E end.
Qed.

Lemma hash_loop_nil (size : nat) (hash : hash_obj) :
  hash_loop size hash [] = hash.
Proof. rewrite hash_loop_once. simpl. by rewrite take_nil. Qed.

(** Reading zero bytes at a time stops at once: the chunk size has to be
    positive for the file to be consumed. *)
Lemma hash_loop_zero (hash : hash_obj) (f : bytes) :
  hash_loop 0 hash f = hash.
Proof. by rewrite hash_loop_once. Qed.

(** With a positive chunk size the loop feeds the whole file, in order. *)
Lemma hash_loop_update (L : StreamHashLaws H) (size : nat) (hash : hash_obj)
  (f : bytes) :
  0 < size -> hash_loop size hash f = update hash f.
Proof.
  intros Hsize. funelim (hash_loop size hash f).
  - match goal with E : take _ _ = [] |- _ =>
      apply take_nil_inv in E as [->| ->]; [lia|] end.
    symmetry. apply (update_nil H L).
  - match goal with IH : forall _ : _, _ -> _ |- _ => rewrite IH by done end.
    rewrite (update_app H L).
    match goal with E : take _ _ = _ |- _ => rewrite <- E end.
    by rewrite take_drop.
Qed.

End hasher.

(** The echoing hash object obeys the laws of [hashlib]. *)
Lemma echo_hash_laws : StreamHashLaws echo_hash.
Proof.
  split; simpl; intros.
  - by rewrite <- (assoc_L (++)).
  - by rewrite (right_id_L [] (++)).
Qed.

(** ** Path resolution *)

Lemma lookup_entry_elem (name : string) (entries : list (string * node))
  (x : node) :
  lookup_entry name entries = Some x -> (name, x) ∈ entries.
Proof.
  induction entries as [|[n y] es IH]; simpl; [done|].
  destruct (String.eqb_spec n name) as [->|_].
  - intros [= ->]. left.
  - intros E. right. auto.
Qed.

Lemma elem_lookup_entry (name : string) (entries : list (string * node))
  (x : node) :
  (name, x) ∈ entries -> is_Some (lookup_entry name entries).
Proof.
  induction entries as [|[n y] es IH]; simpl.
  - by intros ?%elem_of_nil.
  - intros [[= -> ->]|Hin]%elem_of_cons.
    + by rewrite String.eqb_refl.
    + destruct (String.eqb n name); eauto.
Qed.

Lemma height_entry (r : bool) (entries : list (string * node)) (name : string)
  (x : node) :
  (name, x) ∈ entries -> height x < height (Dir r entries).
Proof.
  simpl. induction entries as [|[n y] es IH].
  - by intros ?%elem_of_nil.
  - intros [[= <- <-]|Hin]%elem_of_cons; [lia|]. specialize (IH Hin). lia.
Qed.

Lemma child_height (cur : node) (name : string) (x : node) :
  child cur name = Some x -> height x < height cur.
Proof.
  destruct cur as [|r entries| |]; try done.
  intros E%lookup_entry_elem. exact (height_entry r entries name x E).
Qed.

(** [stat] of a path extended by one name. *)
Lemma stat_hops_snoc (hops : nat) (fs : node) (p : Path) (name : string) :
  stat_hops hops fs (p ++ [name]) =
  stat_hops hops fs p ≫= fun d =>
    step (match hops with 0 => fun _ => None | S h => stat_hops h fs end)
      d name.
Proof. destruct hops; simpl; by rewrite fold_left_app. Qed.

Lemma lstat_snoc (fs : node) (p : Path) (name : string) :
  lstat fs (p ++ [name]) = stat fs p ≫= fun d => child d name.
Proof. unfold lstat. by rewrite reverse_snoc, reverse_involutive. Qed.

(** Where [lstat] sees no link, [stat] sees the same entry. *)
Lemma stat_not_symlink (fs : node) (p : Path) :
  is_symlink fs p = false -> stat fs p = lstat fs p.
Proof.
  unfold is_symlink.
  destruct p as [|name p _] using rev_ind; [by destruct MAXSYMLINKS|].
  rewrite lstat_snoc. unfold stat. rewrite stat_hops_snoc.
  destruct (stat_hops MAXSYMLINKS fs p) as [d|]; simpl; [|done].
  unfold step. by destruct (child d name) as [[]|].
Qed.

(** Whatever [stat] resolves a path to is a node of the tree. *)
Lemma stat_hops_height (hops : nat) (fs : node) (p : Path) (d : node) :
  stat_hops hops fs p = Some d -> height d <= height fs.
Proof.
  revert p d. induction hops as [|h IHh]; intros p;
    induction p as [|name p IHp] using rev_ind; intros d.
  - by intros [= <-].
  - rewrite stat_hops_snoc.
    destruct (stat_hops 0 fs p) as [c|] eqn:E; simpl; [|done].
    unfold step. destruct (child c name) as [x|] eqn:Ec; [|done].
    apply child_height in Ec. specialize (IHp c eq_refl).
    destruct x; try done; intros [= <-]; simpl in *; lia.
  - by intros [= <-].
  - rewrite stat_hops_snoc.
    destruct (stat_hops (S h) fs p) as [c|] eqn:E; simpl; [|done].
    unfold step. destruct (child c name) as [x|] eqn:Ec; [|done].
    apply child_height in Ec. specialize (IHp c eq_refl).
    destruct x; try (intros [= <-]; simpl in *; lia).
    apply IHh.
Qed.

(** ** [walk] *)

(** The elements [iterdir] yields are children of the directory, and what
    [lstat] sees at each is the directory's entry of that name. *)
Lemma iterdir_elements (fs : node) (dir_path : Path) (elements : list Path) :
  iterdir fs dir_path = Ok elements ->
  exists entries,
    stat fs dir_path = Some (Dir true entries) /\
    elements = (fun e => dir_path ++ [e.1]) <$> entries.
Proof.
  unfold iterdir.
  destruct (stat fs dir_path) as [[|[] entries| |]|]; try done.
  intros [= <-]. eauto.
Qed.

Lemma iterdir_child (fs : node) (dir_path : Path) (elements : list Path)
  (element : Path) :
  iterdir fs dir_path = Ok elements -> element ∈ elements ->
  exists entries name,
    stat fs dir_path = Some (Dir true entries) /\
    element = dir_path ++ [name] /\
    lstat fs element = lookup_entry name entries.
Proof.
  intros (entries & Hs & ->)%iterdir_elements
         ([name x] & -> & _)%list_elem_of_fmap.
  exists entries, name. split_and!; [done..|].
  rewrite lstat_snoc, Hs. done.
Qed.

(** The first test of the loop body wins: an element that is a link is
    passed over, whatever [is_file] and [is_dir] say about its target. *)
Lemma walk_loop_symlink (fs : node) (rec : Path -> option (res (list Path)))
  (element : Path) (elements file_list : list Path) :
  is_symlink fs element = true ->
  walk_loop fs rec (element :: elements) file_list =
  walk_loop fs rec elements file_list.
Proof. intros E. simpl. by rewrite E. Qed.

(** An element that passes none of the three tests is passed over too. *)
Lemma walk_loop_other (fs : node) (rec : Path -> option (res (list Path)))
  (element : Path) (elements file_list : list Path) :
  is_symlink fs element = false ->
  is_file fs element = false ->
  is_dir fs element = false ->
  walk_loop fs rec (element :: elements) file_list =
  walk_loop fs rec elements file_list.
Proof. intros E1 E2 E3. simpl. by rewrite E1, E2, E3. Qed.

(** *** Termination *)

Lemma walk_loop_returns (fs : node) (rec : Path -> option (res (list Path)))
  (elements file_list : list Path) :
  (forall e, e ∈ elements -> is_symlink fs e = false -> is_dir fs e = true ->
             is_Some (rec e)) ->
  is_Some (walk_loop fs rec elements file_list).
Proof.
  revert file_list. induction elements as [|e els IH]; intros acc Hrec; simpl.
  - eauto.
  - assert (forall acc', is_Some (walk_loop fs rec els acc')) as Hels.
    { intros acc'. apply IH. intros e' ?. apply Hrec. by right. }
    destruct (is_symlink fs e) eqn:Es; [done|].
    destruct (is_dir fs e) eqn:Ed; [|done].
    destruct (Hrec e) as [[sub|err] ->]; [by left|done..| |]; eauto.
Qed.

(** A budget above the height of the directory walked is enough. *)
Lemma walk_returns_at (fuel : nat) (fs : node) (dir_path : Path) :
  match stat fs dir_path with
  | Some d => height d < fuel
  | None => 0 < fuel
  end ->
  is_Some (walk fuel fs dir_path).
Proof.
  revert dir_path. induction fuel as [|fuel IH]; intros dir_path Hfuel.
  - destruct (stat fs dir_path); lia.
  - simpl. destruct (iterdir fs dir_path) as [elements|err] eqn:Ei; [|eauto].
    apply walk_loop_returns. intros e He Es Ed. apply IH.
    destruct (iterdir_child _ _ _ _ Ei He) as (entries & name & Hs & -> & Hl).
    rewrite Hs in Hfuel. rewrite (stat_not_symlink _ _ Es), Hl.
    unfold is_dir in Ed. rewrite (stat_not_symlink _ _ Es), Hl in Ed.
    destruct (lookup_entry name entries) as [x|] eqn:Ex; [|done].
    apply lookup_entry_elem, (height_entry true) in Ex. lia.
Qed.

(** A larger budget does not change a result already reached. *)
Lemma walk_loop_mono (fs : node) (rec rec' : Path -> option (res (list Path)))
  (elements file_list : list Path) (r : res (list Path)) :
  (forall e r', rec e = Some r' -> rec' e = Some r') ->
  walk_loop fs rec elements file_list = Some r ->
  walk_loop fs rec' elements file_list = Some r.
Proof.
  intros Hrec. revert file_list.
  induction elements as [|e els IH]; intros acc; simpl; [done|].
  destruct (is_symlink fs e); [apply IH|].
  destruct (is_dir fs e); [|apply IH].
  destruct (rec e) as [[sub|err]|] eqn:Er; [| |done];
    rewrite (Hrec _ _ Er); [apply IH|done].
Qed.

Lemma walk_mono (fuel fuel' : nat) (fs : node) (dir_path : Path)
  (r : res (list Path)) :
  fuel <= fuel' ->
  walk fuel fs dir_path = Some r -> walk fuel' fs dir_path = Some r.
Proof.
  revert fuel' dir_path r.
  induction fuel as [|fuel IH]; intros [|fuel'] dir_path r Hle; simpl;
    [done|done|lia|].
  destruct (iterdir fs dir_path); [|done].
  apply walk_loop_mono. intros e r'. apply IH. lia.
Qed.

(** *** What [walk] collects *)

Lemma walk_loop_genuine (fs : node) (rec : Path -> option (res (list Path)))
  (dir : Path) (elements file_list files : list Path) :
  (forall e, e ∈ elements -> exists name, e = dir ++ [name]) ->
  (forall e sub, rec e = Some (Ok sub) ->
     forall f, f ∈ sub -> exists rel, f = e ++ rel /\ genuine fs e rel) ->
  (forall f, f ∈ file_list ->
     exists rel, f = dir ++ rel /\ genuine fs dir rel) ->
  walk_loop fs rec elements file_list = Some (Ok files) ->
  forall f, f ∈ files -> exists rel, f = dir ++ rel /\ genuine fs dir rel.
Proof.
  intros Hel Hrec. revert file_list.
  induction elements as [|e els IH]; intros acc Hacc; simpl.
  - by intros [= <-].
  - assert (forall e', e' ∈ els -> exists name, e' = dir ++ [name]) as Hels.
    { intros e' ?. apply Hel. by right. }
    specialize (IH Hels).
    destruct (is_symlink fs e) eqn:Es; [by apply IH|].
    destruct (Hel e) as [name ->]; [by left|].
    pose proof (stat_not_symlink _ _ Es) as Hst.
    set (acc' := if is_file fs (dir ++ [name]) then acc ++ [dir ++ [name]]
                 else acc).
    assert (forall f, f ∈ acc' ->
              exists rel, f = dir ++ rel /\ genuine fs dir rel) as Hacc'.
    { subst acc'. unfold is_file. rewrite Hst.
      destruct (lstat fs (dir ++ [name])) as [[c| | |]|] eqn:El; try done.
      intros f [?|Hf]%elem_of_app; [by apply Hacc|].
      apply list_elem_of_singleton in Hf as ->.
      exists [name]. split; [done|]. by econstructor. }
    destruct (is_dir fs (dir ++ [name])) eqn:Ed; [|by apply IH].
    destruct (rec (dir ++ [name])) as [[sub|err]|] eqn:Er; [|done..].
    apply IH. intros f [?|Hsub]%elem_of_app; [by apply Hacc'|].
    destruct (Hrec _ _ Er f Hsub) as (rel & -> & Hg).
    exists (name :: rel). split; [by rewrite <- (assoc_L (++))|].
    unfold is_dir in Ed. rewrite Hst in Ed.
    destruct (lstat fs (dir ++ [name])) as [[|r entries| |]|] eqn:El;
      try done.
    by econstructor.
Qed.

Lemma walk_genuine (fuel : nat) (fs : node) (dir_path : Path)
  (files : list Path) :
  walk fuel fs dir_path = Some (Ok files) ->
  forall f, f ∈ files ->
    exists rel, f = dir_path ++ rel /\ genuine fs dir_path rel.
Proof.
  revert dir_path files.
  induction fuel as [|fuel IH]; intros dir_path files; simpl; [done|].
  destruct (iterdir fs dir_path) as [elements|err] eqn:Ei; [|done].
  apply walk_loop_genuine.
  - intros e He.
    destruct (iterdir_child _ _ _ _ Ei He) as (? & name & _ & -> & _). eauto.
  - apply IH.
  - by intros f ?%elem_of_nil.
Qed.

(** Along a genuine path nothing is a link: every part is a directory, and
    the last one a regular file. *)
Lemma genuine_parts (fs : node) (dir rel : Path) :
  genuine fs dir rel ->
  rel <> [] /\
  forall k, 0 < k <= length rel ->
    match lstat fs (dir ++ take k rel) with
    | Some (File _) => k = length rel
    | Some (Dir _ _) => k < length rel
    | _ => False
    end.
Proof.
  induction 1 as [dir name c Hl|dir name r entries rel Hl Hg [Hne IH]].
  - split; [done|]. intros [|[|k]] Hk; simpl in *; try lia. by rewrite Hl.
  - split; [done|]. intros [|[|k]] Hk; simpl in *; try lia.
    + rewrite take_0, Hl. destruct rel; [done|simpl; lia].
    + specialize (IH (S k)). rewrite <- (assoc_L (++)) in IH. simpl in IH.
      destruct (lstat fs (dir ++ name :: take (S k) rel)) as [[]|];
        try (apply IH; lia).
      * assert (S k = length rel) by (apply IH; lia). lia.
      * assert (S k < length rel) by (apply IH; lia). lia.
Qed.

(** Nothing that [walk] lists lies at or below an entry that [lstat] shows
    as something else than a regular file or a directory. *)
Lemma genuine_not_below (fs : node) (dir rel q : Path) :
  genuine fs dir rel -> q <> [] -> q `prefix_of` rel ->
  match lstat fs (dir ++ q) with
  | Some (File _) | Some (Dir _ _) => True
  | _ => False
  end.
Proof.
  intros [_ Hparts]%genuine_parts Hq [k ->].
  specialize (Hparts (length q)). rewrite take_app_length in Hparts.
  destruct q; [done|].
  destruct (lstat fs _) as [[]|]; try done; apply Hparts;
    rewrite length_app; simpl; lia.
Qed.

(** C3. The loop body of the walker tests is-symlink first, then
    is-regular-file, then is-directory: an element that is a link is passed
    over whatever the other two tests say of its target, and so is an
    element that passes none of the tests.  Hence every path the walker
    returns is reached through real directories and ends in a regular file,
    and no returned path lies at or below a link or an entry of another type
    found under the walked directory. *)
Theorem walk_skips_links_and_others (fuel : nat) (fs : node) (dir_path : Path)
  (files : list Path) :
  walk fuel fs dir_path = Some (Ok files) ->
  (forall rec element elements file_list,
     is_symlink fs element = true ->
     walk_loop fs rec (element :: elements) file_list =
     walk_loop fs rec elements file_list) /\
  (forall rec element elements file_list,
     is_symlink fs element = false -> is_file fs element = false ->
     is_dir fs element = false ->
     walk_loop fs rec (element :: elements) file_list =
     walk_loop fs rec elements file_list) /\
  (forall f, f ∈ files ->
     exists rel, f = dir_path ++ rel /\ genuine fs dir_path rel) /\
  (forall q, q <> [] ->
     is_symlink fs (dir_path ++ q) = true \/
     lstat fs (dir_path ++ q) = Some Other ->
     forall f, f ∈ files -> ~ (dir_path ++ q) `prefix_of` f).
Proof.
  intros Hw. split_and!.
  - intros. by apply walk_loop_symlink.
  - intros. by apply walk_loop_other.
  - by eapply walk_genuine.
  - intros q Hq Hbad f Hf Hpre.
    destruct (walk_genuine _ _ _ _ Hw f Hf) as (rel & -> & Hg).
    apply prefix_app_inv in Hpre.
    pose proof (genuine_not_below _ _ _ _ Hg Hq Hpre) as Hl.
    unfold is_symlink in Hbad.
    destruct (lstat fs (dir_path ++ q)) as [[]|]; try done;
      by destruct Hbad.
Qed.

Lemma walk_skips_links_and_others_witness :
  walk 4 example_fs ["A"] =
    Some (Ok [["A"; "a.bin"]; ["A"; "b.bin"]; ["A"; "sub"; "d.bin"]]) /\
  is_symlink example_fs ["A"; "alias"] = true /\
  is_file example_fs ["A"; "alias"] = true /\
  is_symlink example_fs ["A"; "loop"] = true /\
  is_dir example_fs ["A"; "loop"] = true /\
  forall f, f ∈ [["A"; "a.bin"]; ["A"; "b.bin"]; ["A"; "sub"; "d.bin"]] ->
    ~ (["A"] ++ ["loop"]) `prefix_of` f.
Proof.
  split_and!; [reflexivity..|].
  apply (walk_skips_links_and_others 4 example_fs ["A"]
           [["A"; "a.bin"]; ["A"; "b.bin"]; ["A"; "sub"; "d.bin"]]).
  - reflexivity.
  - discriminate.
  - left. reflexivity.
Defined.

(** A budget above the height of the whole tree is enough from every
    directory. *)
Lemma walk_returns (fuel : nat) (fs : node) (dir_path : Path) :
  height fs < fuel -> is_Some (walk fuel fs dir_path).
Proof.
  intros Hfuel. apply walk_returns_at.
  destruct (stat fs dir_path) as [d|] eqn:Es; [|lia].
  apply stat_hops_height in Es. lia.
Qed.

(** C10. The walker returns on every tree, whatever links it holds: a
    recursion budget above the height of the tree is enough for [walk] to
    give its result, and a larger budget gives the same result. *)
Theorem walk_terminates (fs : node) (dir_path : Path) (fuel : nat) :
  height fs < fuel ->
  exists r, walk fuel fs dir_path = Some r /\
    forall fuel', fuel <= fuel' -> walk fuel' fs dir_path = Some r.
Proof.
  intros Hfuel. destruct (walk_returns fuel fs dir_path Hfuel) as [r Hr].
  exists r. split; [done|]. intros fuel' Hle. by eapply walk_mono.
Qed.

Lemma walk_terminates_witness :
  height example_fs < 4 /\
  exists r, walk 4 example_fs ["A"] = Some r /\
    forall fuel', 4 <= fuel' -> walk fuel' example_fs ["A"] = Some r.
Proof.
  split; [vm_compute; lia|]. apply walk_terminates. vm_compute. lia.
Defined.

(** ** Dictionaries *)

Section dict.
Context {V : Type}.
Implicit Types (d : list (string * V)) (key : string) (v : V).

Lemma dict_set_fresh key v d :
  key ∉ keys d -> dict_set key v d = d ++ [(key, v)].
Proof.
  induction d as [|[k w] d IH]; simpl; [done|].
  rewrite not_elem_of_cons. intros [Hne Hnin].
  destruct (String.eqb_spec k key) as [->|_]; [done|]. by rewrite IH.
Qed.

Lemma dict_get_app_fresh key d1 d2 :
  key ∉ keys d1 -> dict_get key (d1 ++ d2) = dict_get key d2.
Proof.
  induction d1 as [|[k w] d1 IH]; simpl; [done|].
  rewrite not_elem_of_cons. intros [Hne Hnin].
  destruct (String.eqb_spec k key) as [->|_]; [done|]. by apply IH.
Qed.

Lemma dict_get_head key v d : dict_get key ((key, v) :: d) = Some v.
Proof. simpl. by rewrite String.eqb_refl. Qed.

Lemma dict_get_elem key v d : dict_get key d = Some v -> (key, v) ∈ d.
Proof.
  induction d as [|[k w] d IH]; simpl; [done|].
  destruct (String.eqb_spec k key) as [->|_].
  - intros [= ->]. left.
  - intros ?. right. auto.
Qed.

Lemma dict_get_NoDup key v d :
  NoDup (keys d) -> (key, v) ∈ d -> dict_get key d = Some v.
Proof.
  induction d as [|[k w] d IH]; simpl.
  - by intros _ ?%elem_of_nil.
  - rewrite NoDup_cons. intros [Hk Hd] [[= -> ->]|Hin]%elem_of_cons.
    + by rewrite String.eqb_refl.
    + destruct (String.eqb_spec k key) as [->|_]; [|by apply IH].
      destruct Hk. apply list_elem_of_fmap. by exists (key, v).
Qed.

(** A comprehension over distinct keys lists them in their order. *)
Lemma dict_comprehension_NoDup (f : string -> V) (l : list string) :
  NoDup l -> dict_comprehension f l = (fun k => (k, f k)) <$> l.
Proof.
  unfold dict_comprehension.
  assert (forall acc : list (string * V),
            NoDup l -> (forall k, k ∈ l -> k ∉ keys acc) ->
            fold_left (fun d k => dict_set k (f k) d) l acc =
            acc ++ ((fun k => (k, f k)) <$> l)) as Hgen.
  { induction l as [|k l IH]; intros acc Hnd Hfresh; simpl.
    - by rewrite (right_id_L [] (++)).
    - apply NoDup_cons in Hnd as [Hk Hnd].
      rewrite dict_set_fresh by (apply Hfresh; left).
      rewrite IH, <- (assoc_L (++)); [done|done|].
      intros k' Hk'. unfold keys. rewrite fmap_app, not_elem_of_app. split.
      + apply Hfresh. by right.
      + simpl. rewrite list_elem_of_singleton. by intros ->. }
  intros Hnd. rewrite Hgen; [done|done|].
  intros k _. apply not_elem_of_nil.
Qed.

End dict.

Lemma keys_comprehension {V : Type} (f : string -> V) (l : list string) :
  keys ((fun k => (k, f k)) <$> l) = l.
Proof.
  unfold keys. induction l as [|k l IH]; simpl; [done|]. by f_equal.
Qed.

(** ** [sorted] *)

Lemma sorted_elem (X : gset string) (k : string) : k ∈ sorted X <-> k ∈ X.
Proof. unfold sorted. by rewrite merge_sort_Permutation, elem_of_elements. Qed.

Lemma sorted_NoDup (X : gset string) : NoDup (sorted X).
Proof. unfold sorted. rewrite merge_sort_Permutation. apply NoDup_elements. Qed.

Lemma sorted_StronglySorted (X : gset string) :
  StronglySorted String.le (sorted X).
Proof. apply StronglySorted_merge_sort; apply _. Qed.

(** ** The slots *)

Lemma last_named_is_Some (name : string) (pairs : list (string * string)) :
  is_Some (last_named name pairs) <-> name ∈ pairs.*1.
Proof.
  induction pairs as [|[n c] ps IH]; simpl.
  - split; [by intros [? [=]]|by intros ?%elem_of_nil].
  - rewrite elem_of_cons, <- IH. clear IH.
    destruct (last_named name ps) as [c'|]; [split; eauto|].
    destruct (String.eqb_spec n name) as [->|Hne]; [split; eauto|].
    split; [by intros [? [=]]|]. intros [?|[? [=]]]. congruence.
Qed.

Lemma last_named_elem (name c : string) (pairs : list (string * string)) :
  last_named name pairs = Some c -> (name, c) ∈ pairs.
Proof.
  induction pairs as [|[n c0] ps IH]; simpl; [done|].
  destruct (last_named name ps) as [c'|].
  - intros [= ->]. right. by apply IH.
  - destruct (String.eqb_spec n name) as [->|_]; [|done].
    intros [= ->]. left.
Qed.

(** ** [get_file_hashes] *)

Lemma fmap_unchanged {A : Type} (g : A -> A) (l : list A) :
  (forall x, x ∈ l -> g x = x) -> g <$> l = l.
Proof.
  induction l as [|x l IH]; intros Hg; simpl; [done|].
  rewrite Hg by left. f_equal. apply IH. intros y ?. apply Hg. by right.
Qed.

Lemma keys_fmap_value {V W : Type} (g : string * V -> W)
  (d : list (string * V)) :
  keys ((fun e => (e.1, g e)) <$> d) = keys d.
Proof. unfold keys. induction d as [|e d IH]; simpl; [done|]. by f_equal. Qed.

(** An assignment to a slot of a dictionary with distinct keys changes the
    value of the key and nothing else; it fails only on a missing key. *)
Lemma set_hash_spec (i : nat) (name c : string) (d : hash_dict) :
  i < 2 -> NoDup (keys d) -> name ∈ keys d ->
  set_hash i name c d =
  Ok ((fun e => (e.1, if String.eqb e.1 name then put i (Some c) e.2 else e.2))
        <$> d).
Proof.
  intros Hi. induction d as [|[k v] d IH]; simpl.
  - by intros _ ?%elem_of_nil.
  - rewrite NoDup_cons. intros [Hk Hnd] Hin.
    destruct (String.eqb_spec k name) as [->|Hne].
    + assert (set_slot i c v = Ok (put i (Some c) v)) as ->.
      { destruct i as [|[|i]]; [done|done|lia]. }
      simpl. do 2 f_equal. symmetry. apply fmap_unchanged.
      intros [k' v'] Hin'. simpl.
      destruct (String.eqb_spec k' name) as [->|_]; [|done].
      destruct Hk. apply list_elem_of_fmap. by exists (name, v').
    + apply elem_of_cons in Hin as [?|Hin]; [congruence|].
      by rewrite IH.
Qed.

Lemma set_hash_Ok_inv (i : nat) (name c : string) (d d' : hash_dict) :
  set_hash i name c d = Ok d' -> name ∈ keys d.
Proof.
  revert d'. induction d as [|[k v] d IH]; intros d'; simpl; [done|].
  destruct (String.eqb_spec k name) as [->|_]; [left|].
  destruct (set_hash i name c d) as [d''|]; [|done].
  intros _. right. by eapply IH.
Qed.

Section merge.
Context {H : StreamHash}.

Lemma named_checksums_cons (fs : node) (roots : list Path) (i : nat)
  (file : Path) (files : list Path) :
  named_checksums fs roots i (file :: files) =
  checksum ← calc_md5 fs file;
  name ← file_name roots i file;
  pairs ← named_checksums fs roots i files;
  Ok ((name, checksum) :: pairs).
Proof.
  unfold named_checksums. simpl.
  destruct (calc_md5 fs file); simpl; [|done]. by destruct (file_name _ _ _).
Qed.

(** The names of the pairs are the names the first two lines of
    [get_file_hashes] compute. *)
Lemma named_checksums_names (fs : node) (roots : list Path) (i : nat)
  (files : list Path) (pairs : list (string * string)) :
  named_checksums fs roots i files = Ok pairs ->
  comprehension (file_name roots i) files = Ok pairs.*1.
Proof.
  revert pairs. induction files as [|f files IH]; intros pairs.
  - by intros [= <-].
  - rewrite named_checksums_cons. simpl.
    destruct (calc_md5 fs f) as [c|]; simpl; [|done].
    destruct (file_name roots i f) as [n|]; simpl; [|done].
    destruct (named_checksums fs roots i files) as [ps|]; simpl; [|done].
    intros [= <-]. by rewrite (IH ps).
Qed.

(** One of the filling loops, on a dictionary with distinct keys: every
    value gets in slot [i] the checksum stored last under its key. *)
Lemma fill_loop_Ok (fs : node) (roots : list Path) (i : nat)
  (files : list Path) (d d' : hash_dict) :
  i < 2 -> NoDup (keys d) ->
  for_each (fill fs roots i) files d = Ok d' ->
  exists pairs,
    named_checksums fs roots i files = Ok pairs /\
    (forall n, n ∈ pairs.*1 -> n ∈ keys d) /\
    d' = (fun e => (e.1, put i (last_named e.1 pairs) e.2)) <$> d.
Proof.
  intros Hi. revert d.
  induction files as [|f files IH]; intros d Hnd; simpl.
  - intros [= <-]. exists []. split_and!; [done|by intros ? ?%elem_of_nil|].
    symmetry. apply fmap_unchanged. by intros [].
  - rewrite named_checksums_cons.
    destruct (fill fs roots i d f) as [d1|] eqn:Es; simpl; [|done].
    unfold fill in Es.
    destruct (calc_md5 fs f) as [c|]; simpl in *; [|done].
    destruct (file_name roots i f) as [n|]; simpl in *; [|done].
    pose proof (set_hash_Ok_inv _ _ _ _ _ Es) as Hn.
    rewrite set_hash_spec in Es by done. injection Es as <-.
    intros Hloop. apply IH in Hloop as (ps & -> & Hps & ->);
      [|by rewrite keys_fmap_value].
    rewrite keys_fmap_value in Hps.
    exists ((n, c) :: ps). split_and!; [done| |].
    { intros n' [->|?]%elem_of_cons; auto. }
    rewrite <- list_fmap_compose. apply list_fmap_ext.
    intros _ [k v] _. simpl. f_equal.
    destruct (last_named k ps) as [c'|]; simpl.
    + by destruct (String.eqb k n), i.
    + rewrite (String.eqb_sym n k). by destruct (String.eqb k n).
Qed.

Lemma fill_loop_total (fs : node) (roots : list Path) (i : nat)
  (files : list Path) (d : hash_dict) (pairs : list (string * string)) :
  i < 2 -> NoDup (keys d) ->
  named_checksums fs roots i files = Ok pairs ->
  (forall n, n ∈ pairs.*1 -> n ∈ keys d) ->
  is_ok (for_each (fill fs roots i) files d) = true.
Proof.
  intros Hi. revert d pairs.
  induction files as [|f files IH]; intros d pairs Hnd; simpl; [done|].
  rewrite named_checksums_cons. unfold fill at 2.
  destruct (calc_md5 fs f) as [c|]; simpl; [|done].
  destruct (file_name roots i f) as [n|]; simpl; [|done].
  destruct (named_checksums fs roots i files) as [ps|] eqn:Eps; simpl;
    [|done].
  intros [= <-] Hin. rewrite set_hash_spec; [|done|done|apply Hin; left].
  simpl. apply (IH _ ps); rewrite ?keys_fmap_value; [done|done|].
  intros n' ?. apply Hin. by right.
Qed.

End merge.

Section pipeline.
Context {H : StreamHash}.

(** [get_file_hashes] is the outer join of the two lists of named
    checksums. *)
Lemma get_file_hashes_Ok (fs : node) (a b : list Path) (roots : list Path)
  (d : hash_dict) :
  get_file_hashes fs a b roots = Ok d ->
  exists pa pb,
    named_checksums fs roots 0 a = Ok pa /\
    named_checksums fs roots 1 b = Ok pb /\
    d = outer_join pa pb.
Proof.
  unfold get_file_hashes.
  destruct (comprehension (file_name roots 0) a) as [na|] eqn:Ena; [|done].
  destruct (comprehension (file_name roots 1) b) as [nb|] eqn:Enb; [|done].
  simpl. rewrite dict_comprehension_NoDup by apply sorted_NoDup.
  set (names := sorted (list_to_set na ∪ list_to_set nb)).
  destruct (for_each (fill fs roots 0) a _) as [d1|] eqn:Ea; [|done]. simpl.
  apply fill_loop_Ok in Ea as (pa & Epa & _ & ->);
    [|lia|rewrite keys_comprehension; apply sorted_NoDup].
  intros (pb & Epb & _ & ->)%fill_loop_Ok;
    [|lia|rewrite keys_fmap_value, keys_comprehension; apply sorted_NoDup].
  exists pa, pb. split_and!; [done..|].
  apply named_checksums_names in Epa, Epb.
  assert (na = pa.*1) as -> by congruence.
  assert (nb = pb.*1) as -> by congruence.
  unfold outer_join. fold names. rewrite <- !list_fmap_compose.
  apply list_fmap_ext. intros _ k _. simpl. f_equal.
  by destruct (last_named k pa), (last_named k pb).
Qed.

(** It raises only when a name cannot be computed or a file cannot be
    hashed: the assignments to the slots never miss their key. *)
Lemma get_file_hashes_total (fs : node) (a b : list Path) (roots : list Path)
  (pa pb : list (string * string)) :
  named_checksums fs roots 0 a = Ok pa ->
  named_checksums fs roots 1 b = Ok pb ->
  get_file_hashes fs a b roots = Ok (outer_join pa pb).
Proof.
  intros Epa Epb.
  destruct (get_file_hashes fs a b roots) as [d|e] eqn:Eg.
  - apply get_file_hashes_Ok in Eg as (pa' & pb' & ? & ? & ->). congruence.
  - exfalso. revert Eg. unfold get_file_hashes.
    rewrite (named_checksums_names _ _ _ _ _ Epa),
            (named_checksums_names _ _ _ _ _ Epb).
    simpl. rewrite dict_comprehension_NoDup by apply sorted_NoDup.
    set (names := sorted (list_to_set pa.*1 ∪ list_to_set pb.*1)).
    assert (NoDup names) as Hnd by apply sorted_NoDup.
    destruct (for_each (fill fs roots 0) a _) as [d1|e1] eqn:Ea; simpl.
    + apply fill_loop_Ok in Ea as (? & _ & _ & ->);
        [|lia|by rewrite keys_comprehension].
      intros Eb.
      pose proof (fill_loop_total fs roots 1 b
        ((fun e => (e.1, put 0 (last_named e.1 x) e.2)) <$>
           ((fun k => (k, (None, None))) <$> names)) pb) as Ht.
      rewrite Eb in Ht. simpl in Ht.
      rewrite keys_fmap_value, keys_comprehension in Ht.
      discriminate Ht; [lia|done|done|].
      intros n Hn. apply sorted_elem.
      rewrite elem_of_union, !elem_of_list_to_set. by right.
    + intros _.
      pose proof (fill_loop_total fs roots 0 a
        ((fun k => (k, (None, None))) <$> names) pa) as Ht.
      rewrite Ea in Ht. simpl in Ht. rewrite keys_comprehension in Ht.
      discriminate Ht; [lia|done|done|].
      intros n Hn. apply sorted_elem.
      rewrite elem_of_union, !elem_of_list_to_set. by left.
Qed.

End pipeline.

Lemma keys_outer_join (pa pb : list (string * string)) :
  keys (outer_join pa pb) = sorted (list_to_set pa.*1 ∪ list_to_set pb.*1).
Proof. apply keys_comprehension. Qed.

Lemma outer_join_elem (pa pb : list (string * string)) (name : string)
  (v : hashes) :
  (name, v) ∈ outer_join pa pb <->
  (name ∈ pa.*1 \/ name ∈ pb.*1) /\
  v = (last_named name pa, last_named name pb).
Proof.
  unfold outer_join. split.
  - intros (k & Heq & Hk)%list_elem_of_fmap.
    injection Heq as -> ->. split; [|done].
    apply sorted_elem in Hk.
    by rewrite elem_of_union, !elem_of_list_to_set in Hk.
  - intros [Hk ->]. apply list_elem_of_fmap. exists name. split; [done|].
    apply sorted_elem. by rewrite elem_of_union, !elem_of_list_to_set.
Qed.

(** ** [differ] *)

Lemma keys_changes_of_elem (d : hash_dict) (name : string) :
  name ∈ keys (changes_of d) -> name ∈ keys d.
Proof.
  unfold keys, changes_of. rewrite !list_elem_of_fmap.
  intros ([k c] & -> & ([k' v] & Hin & E)%list_elem_of_omap). simpl in *.
  destruct (classify v); simplify_eq/=. by exists (k, v).
Qed.

(** The loop of [differ] reads the dictionary under its own keys, so the
    look-up never misses. *)
Lemma dict_get_key {V : Type} (entry : string) (d : list (string * V)) :
  entry ∈ keys d -> is_Some (dict_get entry d).
Proof.
  induction d as [|[k v] d IH]; simpl.
  - by intros ?%elem_of_nil.
  - destruct (String.eqb_spec k entry) as [->|Hne]; [by eauto|].
    intros [?|?]%elem_of_cons; [congruence|by apply IH].
Qed.

(** Outside the merged record: an entry without any digest would be filed
    under Added, since the first test looks at the first slot only. *)
Example classify_no_digest :
  classify (None, None) = Some (Change Added None None).
Proof. reflexivity. Qed.

(** On a dictionary with distinct keys the loop of [differ] appends one
    record after the other. *)
Lemma differ_changes_NoDup (d : hash_dict) :
  NoDup (keys d) -> differ_changes d = changes_of d.
Proof.
  intros Hnd. unfold differ_changes.
  assert (forall d1 d2, d = d1 ++ d2 ->
    fold_left
      (fun changes entry =>
         match dict_get entry d ≫= classify with
         | Some c => dict_set entry c changes
         | None => changes
         end) (keys d2) (changes_of d1) = changes_of d) as Hgen.
  { intros d1 d2. revert d1.
    induction d2 as [|[k v] d2 IH]; intros d1 ->; simpl.
    - by rewrite (right_id_L [] (++)).
    - assert (k ∉ keys d1) as Hk.
      { unfold keys in Hnd. rewrite fmap_app in Hnd.
        apply NoDup_app in Hnd as (_ & Hdisj & _).
        intros Hin. apply (Hdisj k Hin). left. }
      rewrite dict_get_app_fresh, dict_get_head by done. simpl.
      rewrite <- (IH (d1 ++ [(k, v)])) by by rewrite <- (assoc_L (++)).
      f_equal.
      assert (changes_of (d1 ++ [(k, v)]) =
              changes_of d1 ++
              match classify v with Some c => [(k, c)] | None => [] end) as ->.
      { unfold changes_of. rewrite omap_app. simpl. by destruct (classify v). }
      destruct (classify v) as [c|]; simpl.
      + apply dict_set_fresh. intros Hin. by apply Hk, keys_changes_of_elem.
      + by rewrite (right_id_L [] (++)). }
  by apply (Hgen [] d).
Qed.

Lemma dict_get_fresh {V : Type} (key : string) (d : list (string * V)) :
  key ∉ keys d -> dict_get key d = None.
Proof.
  intros Hk. rewrite <- (right_id_L [] (++) d).
  by rewrite dict_get_app_fresh.
Qed.

Lemma dict_get_changes_of (d : hash_dict) (name : string) :
  NoDup (keys d) ->
  dict_get name (changes_of d) = dict_get name d ≫= classify.
Proof.
  induction d as [|[k v] d IH]; simpl; [done|].
  rewrite NoDup_cons. intros [Hk Hnd].
  change (changes_of ((k, v) :: d)) with
    (match classify v with
     | Some c => (k, c) :: changes_of d
     | None => changes_of d
     end).
  destruct (String.eqb_spec k name) as [->|Hne]; simpl.
  - destruct (classify v) as [c|]; simpl.
    + by rewrite String.eqb_refl.
    + apply dict_get_fresh. intros Hin. by apply Hk, keys_changes_of_elem.
  - destruct (classify v) as [c|]; simpl; [|by apply IH].
    destruct (String.eqb_spec k name); [done|by apply IH].
Qed.

(** ** The order of strings *)

Lemma le_lex_lt (s t : string) : String.le s t -> s <> t -> lex_lt s t.
Proof.
  unfold String.le, String.leb. revert t.
  induction s as [|a s IH]; intros [|c t]; simpl; try done.
  - intros _ _. constructor.
  - unfold Ascii.compare.
    destruct (N_of_ascii a ?= N_of_ascii c)%N eqn:E; [| |done].
    + apply N.compare_eq_iff in E.
      assert (a = c) as ->.
      { by rewrite <- (ascii_N_embedding a), <- (ascii_N_embedding c), E. }
      intros Hle Hne. apply lex_lt_tail, IH; [done|congruence].
    + intros _ _. apply lex_lt_head. by apply N.compare_lt_iff.
Qed.

Lemma StronglySorted_strict (l : list string) :
  StronglySorted String.le l -> NoDup l -> StronglySorted lex_lt l.
Proof.
  induction 1 as [|x l Hl IH Hx]; [constructor|].
  rewrite NoDup_cons. intros [Hnin Hnd]. constructor; [by apply IH|].
  rewrite Forall_forall in Hx |- *. intros y Hy.
  apply le_lex_lt; [by apply Hx|]. by intros ->.
Qed.

(** The keys of the change records are keys of the dictionary, in the same
    order. *)
Lemma keys_changes_of_sublist (d : hash_dict) :
  keys (changes_of d) `sublist_of` keys d.
Proof.
  induction d as [|[k v] d IH]; simpl; [done|].
  change (changes_of ((k, v) :: d)) with
    (match classify v with
     | Some c => (k, c) :: changes_of d
     | None => changes_of d
     end).
  destruct (classify v); simpl; by constructor.
Qed.

Lemma StronglySorted_sublist {A : Type} (R : relation A) (l k : list A) :
  l `sublist_of` k -> StronglySorted R k -> StronglySorted R l.
Proof.
  induction 1 as [|x l k Hs IH|x l k Hs IH]; intros Hk;
    [done| |]; apply StronglySorted_inv in Hk as [Hk Hx].
  - constructor; [by apply IH|].
    rewrite Forall_forall in Hx |- *. intros y Hy. apply Hx.
    by eapply elem_of_sublist.
  - by apply IH.
Qed.

(** Sorting items whose keys are already in order changes nothing. *)
Lemma sort_items_sorted (changes : change_dict) :
  StronglySorted lex_lt (keys changes) -> sort_items changes = changes.
Proof.
  intros Hs. unfold sort_items.
  set (R := fun x y : string * change => String.le x.1 y.1).
  assert (Transitive R) by (intros x y z; unfold R; apply transitivity).
  assert (Total R) by (intros x y; unfold R; apply total, _).
  assert (forall s t, lex_lt s t -> String.le s t /\ s <> t) as Hlt.
  { induction 1 as [c t|a c s t Hac|a s t Hst [IHle IHne]];
      unfold String.le, String.leb in *; simpl; try done.
    - unfold Ascii.compare.
      apply N.compare_lt_iff in Hac as Hc. rewrite Hc. split; [done|].
      intros [= -> _]. lia.
    - unfold Ascii.compare. rewrite N.compare_refl. split; [done|].
      congruence. }
  assert (StronglySorted R changes /\ NoDup (keys changes)) as [HR Hnd].
  { clear -Hs Hlt. unfold keys in *.
    induction changes as [|[k c] l IH]; simpl in *.
    - split; constructor.
    - apply StronglySorted_inv in Hs as [Hs Hk].
      destruct (IH Hs) as [IH1 IH2]. rewrite Forall_forall in Hk. split.
      + constructor; [done|]. apply Forall_forall. intros [k' c'] Hin.
        apply Hlt, Hk, list_elem_of_fmap. by exists (k', c').
      + constructor; [|done]. intros Hin. by apply Hk, Hlt in Hin as [_ ?]. }
  apply (StronglySorted_unique_strong R).
  - intros [k1 c1] [k2 c2] Hin1 Hin2 H12 H21.
    rewrite merge_sort_Permutation in Hin1. unfold R in *. simpl in *.
    assert (k1 = k2) as <- by by apply (anti_symm String.le).
    f_equal. apply (dict_get_NoDup k1 c1) in Hin1 as E1; [|done].
    apply (dict_get_NoDup k1 c2) in Hin2 as E2; [|done]. congruence.
  - by apply StronglySorted_merge_sort.
  - done.
  - apply merge_sort_Permutation.
Qed.

(** ** The merged record and its classification *)

(** The merged dictionary has distinct keys, and [differ] stores under each
    name the classification of its entry. *)
Lemma merged_distinct_classified {H : StreamHash} (fs : node)
  (a b : list Path) (roots : list Path) (d : hash_dict) :
  get_file_hashes fs a b roots = Ok d ->
  NoDup (keys d) /\
  forall name v, (name, v) ∈ d ->
    dict_get name (differ_changes d) = classify v.
Proof.
  intros (pa & pb & Ea & Eb & ->)%get_file_hashes_Ok.
  assert (NoDup (keys (outer_join pa pb))) as Hnd.
  { rewrite keys_outer_join. apply sorted_NoDup. }
  split; [done|].
  intros name v Hin. rewrite differ_changes_NoDup by done.
  rewrite dict_get_changes_of by done.
  by rewrite (dict_get_NoDup name v).
Qed.

(** C2. The keys of the merged dictionary are exactly the relative names of
    the files of the first list together with those of the second, and no
    key occurs twice; so every file of either tree has exactly one entry,
    and at most one change record, which is the classification of that
    entry. *)
Theorem merged_keys_are_the_union {H : StreamHash} (fs : node)
  (a b : list Path) (roots : list Path) (d : hash_dict) :
  get_file_hashes fs a b roots = Ok d ->
  exists names_a names_b,
    comprehension (file_name roots 0) a = Ok names_a /\
    comprehension (file_name roots 1) b = Ok names_b /\
    (forall name, name ∈ keys d <-> name ∈ names_a \/ name ∈ names_b) /\
    NoDup (keys d) /\
    NoDup (keys (differ_changes d)) /\
    (forall name v, (name, v) ∈ d ->
       dict_get name (differ_changes d) = classify v).
Proof.
  intros (pa & pb & Ea & Eb & ->)%get_file_hashes_Ok.
  exists pa.*1, pb.*1.
  assert (NoDup (keys (outer_join pa pb))) as Hnd.
  { rewrite keys_outer_join. apply sorted_NoDup. }
  split; [by apply (named_checksums_names fs)|].
  split; [by apply (named_checksums_names fs)|].
  split; [|split; [done|split]].
  - intros name. rewrite keys_outer_join, sorted_elem.
    by rewrite elem_of_union, !elem_of_list_to_set.
  - rewrite differ_changes_NoDup by done.
    by eapply sublist_NoDup; [|apply keys_changes_of_sublist].
  - intros name v Hin. rewrite differ_changes_NoDup by done.
    rewrite dict_get_changes_of by done.
    by rewrite (dict_get_NoDup name v).
Qed.

Lemma merged_keys_are_the_union_witness :
  get_file_hashes (H := echo_hash) example_fs example_files_a example_files_b
    [["A"]; ["B"]] = Ok example_merged /\
  exists names_a names_b,
    comprehension (file_name [["A"]; ["B"]] 0) example_files_a = Ok names_a /\
    comprehension (file_name [["A"]; ["B"]] 1) example_files_b = Ok names_b /\
    (forall name,
       name ∈ keys example_merged <-> name ∈ names_a \/ name ∈ names_b) /\
    NoDup (keys example_merged) /\
    NoDup (keys (differ_changes example_merged)) /\
    (forall name v, (name, v) ∈ example_merged ->
       dict_get name (differ_changes example_merged) = classify v).
Proof.
  split; [vm_compute; reflexivity|].
  apply (merged_keys_are_the_union (H := echo_hash) example_fs
           example_files_a example_files_b).
  vm_compute. reflexivity.
Defined.

(** C4. In the merged dictionary every name has a digest in at least one of
    its two slots; a slot is [None] exactly when the name is no file of that
    tree, and [None] is not a digest. *)
Theorem merged_has_a_digest {H : StreamHash} (fs : node) (a b : list Path)
  (roots : list Path) (d : hash_dict) :
  get_file_hashes fs a b roots = Ok d ->
  exists names_a names_b,
    comprehension (file_name roots 0) a = Ok names_a /\
    comprehension (file_name roots 1) b = Ok names_b /\
    forall name h0 h1, (name, (h0, h1)) ∈ d ->
      (is_Some h0 \/ is_Some h1) /\
      (h0 = None <-> name ∉ names_a) /\
      (h1 = None <-> name ∉ names_b) /\
      (forall digest : string, @None string <> Some digest).
Proof.
  intros (pa & pb & Ea & Eb & ->)%get_file_hashes_Ok.
  exists pa.*1, pb.*1.
  split; [by apply (named_checksums_names fs)|].
  split; [by apply (named_checksums_names fs)|].
  intros name h0 h1 [Hin [= -> ->]]%outer_join_elem.
  rewrite <- !last_named_is_Some in Hin |- *.
  rewrite !eq_None_not_Some. split; [done|]. split; [done|]. split; done.
Qed.

Lemma merged_has_a_digest_witness :
  get_file_hashes (H := echo_hash) example_fs example_files_a example_files_b
    [["A"]; ["B"]] = Ok example_merged /\
  exists names_a names_b,
    comprehension (file_name [["A"]; ["B"]] 0) example_files_a = Ok names_a /\
    comprehension (file_name [["A"]; ["B"]] 1) example_files_b = Ok names_b /\
    forall name h0 h1, (name, (h0, h1)) ∈ example_merged ->
      (is_Some h0 \/ is_Some h1) /\
      (h0 = None <-> name ∉ names_a) /\
      (h1 = None <-> name ∉ names_b) /\
      (forall digest : string, @None string <> Some digest).
Proof.
  split; [vm_compute; reflexivity|].
  apply (merged_has_a_digest (H := echo_hash) example_fs
           example_files_a example_files_b).
  vm_compute. reflexivity.
Defined.

(** C1. For every name of the merged dictionary with digests [h0] and [h1],
    the record [differ] stores under the name is Added exactly when [h0] is
    absent and [h1] present, Removed exactly when [h0] is present and [h1]
    absent, Modified exactly when both are present and differ; and there is
    no record exactly when both are present and equal. *)
Theorem differ_classifies {H : StreamHash} (fs : node) (a b : list Path)
  (roots : list Path) (d : hash_dict) :
  get_file_hashes fs a b roots = Ok d ->
  forall name h0 h1, (name, (h0, h1)) ∈ d ->
    let record := dict_get name (differ_changes d) in
    (kind <$> record = Some Added <-> h0 = None /\ is_Some h1) /\
    (kind <$> record = Some Removed <-> is_Some h0 /\ h1 = None) /\
    (kind <$> record = Some Modified <->
       is_Some h0 /\ is_Some h1 /\ h0 <> h1) /\
    (record = None <-> is_Some h0 /\ is_Some h1 /\ h0 = h1) /\
    (forall c, record = Some c -> first_hash c = h0 /\ second_hash c = h1).
Proof.
  intros Hd name h0 h1 Hin record.
  destruct (merged_distinct_classified _ _ _ _ _ Hd) as [Hnd Hcls].
  assert (record = classify (h0, h1)) as -> by by apply Hcls.
  apply get_file_hashes_Ok in Hd as (pa & pb & _ & _ & ->).
  apply outer_join_elem in Hin as [Hin [= -> ->]].
  rewrite <- !last_named_is_Some in Hin. unfold classify. simpl.
  destruct (last_named name pa) as [x|], (last_named name pb) as [y|]; simpl.
  - destruct (String.eqb_spec x y) as [->|Hne]; simpl; naive_solver.
  - naive_solver.
  - naive_solver.
  - destruct Hin as [[? [=]]|[? [=]]].
Qed.

Lemma differ_classifies_witness :
  get_file_hashes (H := echo_hash) example_fs example_files_a example_files_b
    [["A"]; ["B"]] = Ok example_merged /\
  ("c.bin", (None, Some "4")) ∈ example_merged /\
  let record := dict_get "c.bin" (differ_changes example_merged) in
  (kind <$> record = Some Added <->
     @None string = None /\ is_Some (Some "4")) /\
  (kind <$> record = Some Removed <->
     is_Some (@None string) /\ Some "4" = None) /\
  (kind <$> record = Some Modified <->
     is_Some (@None string) /\ is_Some (Some "4") /\ None <> Some "4") /\
  (record = None <->
     is_Some (@None string) /\ is_Some (Some "4") /\ None = Some "4") /\
  (forall c, record = Some c ->
     first_hash c = None /\ second_hash c = Some "4").
Proof.
  split; [vm_compute; reflexivity|].
  split; [do 2 right; left|].
  apply (differ_classifies (H := echo_hash) example_fs
           example_files_a example_files_b [["A"]; ["B"]] example_merged).
  - vm_compute. reflexivity.
  - do 2 right. left.
Defined.

(** C5. The change records [differ] builds are in strictly increasing
    lexicographic order of their names, and this is the order [pprint]
    shows them in. *)
Theorem changes_in_lexicographic_order {H : StreamHash} (fs : node)
  (a b : list Path) (roots : list Path) (d : hash_dict) :
  get_file_hashes fs a b roots = Ok d ->
  StronglySorted lex_lt (keys (differ_changes d)) /\
  forall out, differ d out = Some (out ++ [Pretty (differ_changes d)], Ok tt).
Proof.
  intros (pa & pb & _ & _ & ->)%get_file_hashes_Ok.
  assert (StronglySorted lex_lt (keys (differ_changes (outer_join pa pb))))
    as Hs.
  { rewrite differ_changes_NoDup
      by (rewrite keys_outer_join; apply sorted_NoDup).
    eapply StronglySorted_sublist; [apply keys_changes_of_sublist|].
    rewrite keys_outer_join.
    apply StronglySorted_strict;
      [apply sorted_StronglySorted|apply sorted_NoDup]. }
  split; [done|]. intros out. unfold differ, pprint.
  by rewrite sort_items_sorted.
Qed.

Lemma changes_in_lexicographic_order_witness :
  get_file_hashes (H := echo_hash) example_fs example_files_a example_files_b
    [["A"]; ["B"]] = Ok example_merged /\
  StronglySorted lex_lt (keys (differ_changes example_merged)) /\
  forall out,
    differ example_merged out =
    Some (out ++ [Pretty (differ_changes example_merged)], Ok tt).
Proof.
  split; [vm_compute; reflexivity|].
  apply (changes_in_lexicographic_order (H := echo_hash) example_fs
           example_files_a example_files_b [["A"]; ["B"]]).
  vm_compute. reflexivity.
Defined.

(** ** The hasher, as [calc_md5] uses it *)

Lemma fnv1a_laws : StreamHashLaws fnv1a.
Proof. split; simpl; intros; [by rewrite fold_left_app|done]. Qed.

(** C6. For every byte sequence and every positive chunk size, reading the
    sequence chunk by chunk and feeding each chunk to the hash object gives
    the digest of the whole sequence fed at once; so the digest is the one
    obtained with the chunk size 8192 of the source, and [calc_md5] returns
    the digest of the whole content of the file. *)
Theorem chunk_size_does_not_matter (H : StreamHash) (L : StreamHashLaws H)
  (size : nat) (content : bytes) :
  0 < size ->
  hexdigest (hash_loop size md5 content) = hexdigest (update md5 content) /\
  hexdigest (hash_loop size md5 content) =
    hexdigest (hash_loop CHUNK md5 content) /\
  forall fs file_path,
    open_rb fs file_path = Ok content ->
    calc_md5 fs file_path = Ok (hexdigest (update md5 content)).
Proof.
  intros Hsize. assert (0 < CHUNK) as Hchunk by by apply Nat.ltb_lt.
  rewrite !hash_loop_update by done. split_and!; [done..|].
  intros fs file_path Ho. unfold calc_md5. rewrite Ho. simpl.
  by rewrite hash_loop_update.
Qed.

Lemma chunk_size_does_not_matter_witness :
  0 < 3 /\
  hexdigest (hash_loop (H := fnv1a) 3 md5 (bytes_of "firmware")) =
    hexdigest (update (StreamHash := fnv1a) md5 (bytes_of "firmware")) /\
  hexdigest (hash_loop (H := fnv1a) 3 md5 (bytes_of "firmware")) =
    hexdigest (hash_loop (H := fnv1a) CHUNK md5 (bytes_of "firmware")) /\
  forall fs file_path,
    open_rb fs file_path = Ok (bytes_of "firmware") ->
    calc_md5 (H := fnv1a) fs file_path =
    Ok (hexdigest (update (StreamHash := fnv1a) md5 (bytes_of "firmware"))).
Proof.
  split; [lia|].
  apply (chunk_size_does_not_matter fnv1a fnv1a_laws 3 (bytes_of "firmware")).
  lia.
Defined.

(** With the chunk size zero nothing is read, and the digest is that of the
    empty sequence: positivity is needed. *)
Example chunk_size_zero :
  hexdigest (hash_loop (H := fnv1a) 0 md5 (bytes_of "firmware")) =
    hexdigest (md5 (StreamHash := fnv1a)) /\
  hexdigest (md5 (StreamHash := fnv1a)) <>
    hexdigest (update (StreamHash := fnv1a) md5 (bytes_of "firmware")).
Proof. split; [by rewrite hash_loop_zero|by vm_compute]. Qed.

(** ** [main] and the guard *)

(** C9. Called with a number of arguments other than the program name and
    two roots, the program prints the usage line and returns.  The result is
    the same on every file system and with every recursion budget, also
    none at all: no directory is listed and no file is opened. *)
Theorem wrong_argument_count_prints_usage {H : StreamHash} (fuel : nat)
  (fs : node) (argv : list string) (out : list printed) :
  length argv <> 3 ->
  program fuel fs argv out = Some (out ++ [Line USAGE], Ok tt) /\
  forall (H' : StreamHash) (fuel' : nat) (fs' : node),
    program (H := H') fuel' fs' argv out = program fuel fs argv out.
Proof.
  intros Hlen. unfold program. split; [|intros H' fuel' fs'];
    by destruct (decide (length argv <> 3)).
Qed.

Lemma wrong_argument_count_prints_usage_witness :
  length ["firmware_diff.py"; "A"] <> 3 /\
  program (H := fnv1a) 4 example_fs ["firmware_diff.py"; "A"] [] =
    Some ([] ++ [Line USAGE], Ok tt) /\
  forall (H' : StreamHash) (fuel' : nat) (fs' : node),
    program (H := H') fuel' fs' ["firmware_diff.py"; "A"] [] =
    program (H := fnv1a) 4 example_fs ["firmware_diff.py"; "A"] [].
Proof.
  split; [simpl; lia|].
  apply (wrong_argument_count_prints_usage (H := fnv1a)). simpl. lia.
Defined.

(** With a recursion budget above the height of the tree, the run
    returns. *)
Lemma program_returns {H : StreamHash} (fuel : nat) (fs : node)
  (argv : list string) (out : list printed) :
  height fs < fuel -> is_Some (program fuel fs argv out).
Proof.
  intros Hfuel. unfold program.
  destruct (decide (length argv <> 3)); [by eexists|].
  unfold main, lift, lift_fuel, differ, pprint, index, mbind, io_bind.
  destruct (argv !! 1) as [a1|]; simpl; [|by eexists].
  destruct (argv !! 2) as [a2|]; simpl; [|by eexists].
  destruct (walk_returns fuel fs (Path_of_str a1) Hfuel) as [[fa|ea] ->];
    simpl; [|by eexists].
  destruct (walk_returns fuel fs (Path_of_str a2) Hfuel) as [[fb|eb] ->];
    simpl; [|by eexists].
  destruct (get_file_hashes fs fa fb _); simpl; by eexists.
Qed.

(** C8. A run that ends with an exception has printed nothing; a run that
    ends normally on two roots has walked both trees and merged all their
    digests before it prints, once, the changes of that complete
    comparison.  (With budget above the height of the tree the run does end,
    one way or the other: [program_returns].) *)
Theorem prints_all_or_nothing {H : StreamHash} (fuel : nat) (fs : node)
  (argv : list string) (out out' : list printed) (r : res unit) :
  program fuel fs argv out = Some (out', r) ->
  match r with
  | Raise e => out' = out
  | Ok _ =>
      length argv = 3 ->
      exists root_a root_b files_a files_b d,
        Path_of_str <$> argv !! 1 = Some root_a /\
        Path_of_str <$> argv !! 2 = Some root_b /\
        walk fuel fs root_a = Some (Ok files_a) /\
        walk fuel fs root_b = Some (Ok files_b) /\
        get_file_hashes fs files_a files_b [root_a; root_b] = Ok d /\
        out' = out ++ [Pretty (sort_items (differ_changes d))]
  end.
Proof.
  unfold program. destruct (decide (length argv <> 3)) as [Hlen|Hlen].
  { intros [= <- <-]. done. }
  unfold main, lift, lift_fuel, differ, pprint, index, mbind, io_bind.
  destruct (argv !! 1) as [a1|]; simpl; [|by intros [= <- <-]].
  destruct (argv !! 2) as [a2|]; simpl; [|by intros [= <- <-]].
  destruct (walk fuel fs (Path_of_str a1)) as [[fa|ea]|] eqn:Ea; simpl;
    [|by intros [= <- <-]|done].
  destruct (walk fuel fs (Path_of_str a2)) as [[fb|eb]|] eqn:Eb; simpl;
    [|by intros [= <- <-]|done].
  destruct (get_file_hashes fs fa fb _) as [d|ed] eqn:Ed; simpl;
    [|by intros [= <- <-]].
  intros [= <- <-] _. by exists (Path_of_str a1), (Path_of_str a2), fa, fb, d.
Qed.

Lemma prints_all_or_nothing_witness :
  program (H := fnv1a) 4 locked_fs ["firmware_diff.py"; "C"; "B"] [] =
    Some ([], Raise PermissionError) /\
  @nil printed = [].
Proof.
  split; [vm_compute; reflexivity|].
  apply (prints_all_or_nothing (H := fnv1a) 4 locked_fs
           ["firmware_diff.py"; "C"; "B"] [] [] (Raise PermissionError)).
  vm_compute. reflexivity.
Defined.

(** The three kinds of failure of the specification, each ending the run
    with nothing printed: a root that does not exist, a directory that
    cannot be listed, a file that cannot be opened. *)
Example run_root_missing :
  program (H := fnv1a) 4 locked_fs ["firmware_diff.py"; "C"; "nowhere"] [] =
  Some ([], Raise FileNotFoundError).
Proof. vm_compute. reflexivity. Qed.

Example run_directory_unreadable :
  program (H := fnv1a) 4 locked_fs ["firmware_diff.py"; "A"; "C"] [] =
  Some ([], Raise PermissionError).
Proof. vm_compute. reflexivity. Qed.

Example run_file_unreadable :
  program (H := fnv1a) 4 locked_fs ["firmware_diff.py"; "C"; "B"] [] =
  Some ([], Raise PermissionError).
Proof. vm_compute. reflexivity. Qed.

(** The first scenario of the specification, run from the command line. *)
Example run_scenario :
  program (H := fnv1a) 4 example_fs ["firmware_diff.py"; "A"; "B"] [] =
  Some ([Pretty
           [("b.bin", Change Modified (Some "af63af4c8601a015")
                                     (Some "af63ae4c86019e62"));
            ("c.bin", Change Added None (Some "af63a94c860195e3"));
            ("sub/d.bin", Change Removed (Some "af63a84c86019430") None)]],
        Ok tt).
Proof. vm_compute. reflexivity. Qed.

(** ** Well-formed trees *)

Lemma fresh_elem (name n : string) (x : node) (entries : list (string * node)) :
  fresh n entries = true -> (name, x) ∈ entries -> n <> name.
Proof.
  induction entries as [|[m y] es IH]; simpl.
  - by intros _ ?%elem_of_nil.
  - intros [Hm Hes]%andb_prop [Heq|Hin]%elem_of_cons; [|by apply IH].
    injection Heq as -> ->. intros ->. by rewrite String.eqb_refl in Hm.
Qed.

Lemma fresh_not_elem (n : string) (entries : list (string * node)) :
  fresh n entries = true -> n ∉ entries.*1.
Proof.
  intros Hf ([m x] & -> & Hin)%list_elem_of_fmap.
  by eapply fresh_elem.
Qed.

(** In a well-formed directory every entry is the one found under its name,
    its name has no slash, and it is well-formed itself. *)
Lemma wf_entry (r : bool) (entries : list (string * node)) (name : string)
  (x : node) :
  wf_node (Dir r entries) = true -> (name, x) ∈ entries ->
  lookup_entry name entries = Some x /\ slash_free name = true /\
  wf_node x = true.
Proof.
  simpl. induction entries as [|[n y] es IH]; simpl.
  - by intros _ ?%elem_of_nil.
  - intros [[[Hs Hf]%andb_prop Hy]%andb_prop Hes]%andb_prop.
    intros [[= -> ->]|Hin]%elem_of_cons.
    + by rewrite String.eqb_refl.
    + destruct (String.eqb_spec n name) as [->|_]; [|by apply IH].
      by destruct (fresh_elem _ _ _ _ Hf Hin).
Qed.

Lemma wf_NoDup (r : bool) (entries : list (string * node)) :
  wf_node (Dir r entries) = true -> NoDup entries.*1.
Proof.
  simpl. induction entries as [|[n y] es IH]; simpl; [constructor|].
  intros [[[Hs Hf]%andb_prop Hy]%andb_prop Hes]%andb_prop.
  constructor; [by apply fresh_not_elem|by apply IH].
Qed.

Lemma wf_child (cur : node) (name : string) (x : node) :
  wf_node cur = true -> child cur name = Some x -> wf_node x = true.
Proof.
  destruct cur as [|r es| |]; try done. simpl child.
  intros Hwf Hin%lookup_entry_elem. by eapply wf_entry.
Qed.

Lemma wf_stat_hops (hops : nat) (fs : node) (p : Path) (d : node) :
  wf_node fs = true -> stat_hops hops fs p = Some d -> wf_node d = true.
Proof.
  intros Hwf. revert p d. induction hops as [|h IHh]; intros p;
    induction p as [|name p IHp] using rev_ind; intros d;
    try (by intros [= <-]); rewrite stat_hops_snoc.
  - destruct (stat_hops 0 fs p) as [c|]; simpl; [|done].
    unfold step. destruct (child c name) as [x|] eqn:Ec; [|done].
    apply wf_child in Ec; [|by apply IHp].
    destruct x; try done; by intros [= <-].
  - destruct (stat_hops (S h) fs p) as [c|]; simpl; [|done].
    unfold step. destruct (child c name) as [x|] eqn:Ec; [|done].
    apply wf_child in Ec; [|by apply IHp].
    destruct x; try (by intros [= <-]). apply IHh.
Qed.

(** ** What [reordered] means *)

Lemma reordered_dir (r : bool) (es : list (string * node)) (n' : node) :
  reordered (Dir r es) n' = true ->
  exists es', n' = Dir r es' /\ length es = length es' /\
    forall name x, (name, x) ∈ es ->
      exists x', lookup_entry name es' = Some x' /\ reordered x x' = true.
Proof.
  destruct n' as [|r' es'| |]; try done. simpl.
  intros [[Hr Hlen]%andb_prop Hgo]%andb_prop.
  apply Bool.eqb_prop in Hr as <-. apply Nat.eqb_eq in Hlen.
  exists es'. split; [done|]. split; [done|]. clear Hlen.
  induction es as [|[n y] es IH]; [by intros ?? ?%elem_of_nil|].
  apply andb_prop in Hgo as [Hy Hgo].
  intros name x [[= <- <-]|Hin]%elem_of_cons.
  - destruct (lookup_entry name es') as [x'|]; [eauto|done].
  - by apply IH.
Qed.

Lemma reordered_leaf (n n' : node) :
  reordered n n' = true ->
  match n with
  | Dir r _ => exists es', n' = Dir r es'
  | _ => n' = n
  end.
Proof.
  destruct n, n'; simpl; try done.
  - by intros ->%bool_decide_eq_true.
  - intros [[Hr _]%andb_prop _]%andb_prop.
    apply Bool.eqb_prop in Hr as <-. eauto.
  - by intros ->%bool_decide_eq_true.
Qed.

Section reordered.
Variables (r : bool) (es es' : list (string * node)).
Hypothesis Hwf : wf_node (Dir r es) = true.
Hypothesis Hwf' : wf_node (Dir r es') = true.
Hypothesis Hre : reordered (Dir r es) (Dir r es') = true.

Lemma reordered_partner (name : string) (x : node) :
  (name, x) ∈ es ->
  exists x', (name, x') ∈ es' /\ reordered x x' = true.
Proof.
  intros Hin. destruct (reordered_dir _ _ _ Hre) as (? & [= <-] & _ & Hes).
  destruct (Hes name x Hin) as (x' & Hl%lookup_entry_elem & Hx). eauto.
Qed.

(** The two directories hold the same names. *)
Lemma reordered_names : es.*1 ≡ₚ es'.*1.
Proof.
  destruct (reordered_dir _ _ _ Hre) as (? & [= <-] & Hlen & _).
  apply submseteq_length_Permutation; [|by rewrite !length_fmap, Hlen].
  apply NoDup_submseteq; [by eapply wf_NoDup|].
  intros name ([n x] & -> & Hin)%list_elem_of_fmap.
  destruct (reordered_partner _ _ Hin) as (x' & Hin' & _).
  apply list_elem_of_fmap. by exists (n, x').
Qed.

(** Under every name they hold the same entry, up to the order of
    listings. *)
Lemma reordered_lookup (name : string) :
  same_entry (lookup_entry name es) (lookup_entry name es').
Proof.
  destruct (lookup_entry name es) as [x|] eqn:E.
  - apply lookup_entry_elem in E.
    destruct (reordered_partner _ _ E) as (x' & Hin' & Hx).
    by destruct (wf_entry _ _ _ _ Hwf' Hin') as [-> _].
  - destruct (lookup_entry name es') as [x'|] eqn:E'; [|done]. simpl.
    apply lookup_entry_elem in E'.
    assert (name ∈ es.*1) as ([n x] & -> & Hin)%list_elem_of_fmap.
    { rewrite reordered_names. apply list_elem_of_fmap. by exists (name, x'). }
    apply elem_lookup_entry in Hin as [? Hin]. simpl in *. congruence.
Qed.

End reordered.

Lemma same_entry_child (c c' : node) (name : string) :
  wf_node c = true -> wf_node c' = true -> reordered c c' = true ->
  same_entry (child c name) (child c' name).
Proof.
  intros Hwf Hwf' Hre. pose proof (reordered_leaf _ _ Hre) as Hk.
  destruct c as [|r es| |]; subst; try done.
  destruct Hk as [es' ->]. by apply (reordered_lookup r).
Qed.

Lemma same_entry_step (follow follow' : Path -> option node) (c c' : node)
  (name : string) :
  (forall t, same_entry (follow t) (follow' t)) ->
  wf_node c = true -> wf_node c' = true -> reordered c c' = true ->
  same_entry (step follow c name) (step follow' c' name).
Proof.
  intros Hf Hwf Hwf' Hre. unfold step.
  pose proof (same_entry_child c c' name Hwf Hwf' Hre) as Hc.
  destruct (child c name) as [x|], (child c' name) as [x'|]; try done.
  simpl in Hc. pose proof (reordered_leaf _ _ Hc) as Hk.
  destruct x; subst; try done. by destruct Hk as [? ->].
Qed.

Section same_tree.
Variables fs fs' : node.
Hypothesis Hwf : wf_node fs = true.
Hypothesis Hwf' : wf_node fs' = true.
Hypothesis Hre : reordered fs fs' = true.

(** Every path resolves to the same entry in both trees. *)
Lemma same_entry_stat_hops (hops : nat) (p : Path) :
  same_entry (stat_hops hops fs p) (stat_hops hops fs' p).
Proof.
  revert p. induction hops as [|h IHh]; intros p;
    induction p as [|name p IHp] using rev_ind; try done;
    rewrite !stat_hops_snoc.
  - revert IHp.
    destruct (stat_hops 0 fs p) as [c|] eqn:E,
             (stat_hops 0 fs' p) as [c'|] eqn:E'; try done. simpl.
    intros Hc. apply same_entry_step; [done| | |done].
    + exact (wf_stat_hops _ _ _ _ Hwf E).
    + exact (wf_stat_hops _ _ _ _ Hwf' E').
  - revert IHp.
    destruct (stat_hops (S h) fs p) as [c|] eqn:E,
             (stat_hops (S h) fs' p) as [c'|] eqn:E'; try done. simpl.
    intros Hc. apply same_entry_step; [done| | |done].
    + exact (wf_stat_hops _ _ _ _ Hwf E).
    + exact (wf_stat_hops _ _ _ _ Hwf' E').
Qed.

Lemma same_entry_stat (p : Path) : same_entry (stat fs p) (stat fs' p).
Proof. apply same_entry_stat_hops. Qed.

(** A file opens to the same content in both trees. *)
Lemma open_rb_reordered (p : Path) : open_rb fs p = open_rb fs' p.
Proof.
  unfold open_rb. pose proof (same_entry_stat p) as Hs.
  destruct (stat fs p) as [d|], (stat fs' p) as [d'|]; try done.
  simpl in Hs. pose proof (reordered_leaf _ _ Hs) as Hk.
  destruct d; subst; try done. by destruct Hk as [? ->].
Qed.

End same_tree.

(** ** [walk] against the recursion on the tree *)

Lemma fmap_app_nil {A : Type} (m : res (list A)) : (fun l => [] ++ l) <$> m = m.
Proof. by destruct m. Qed.

Lemma walk_loop_gather (fs : node) (rec : Path -> option (res (list Path)))
  (p : Path) (es : list (string * node)) (acc : list Path) :
  (forall name x, (name, x) ∈ es -> lstat fs (p ++ [name]) = Some x) ->
  (forall name r es0, (name, Dir r es0) ∈ es ->
     rec (p ++ [name]) = Some (collect (p ++ [name]) (Dir r es0))) ->
  walk_loop fs rec ((fun e => p ++ [e.1]) <$> es) acc =
  Some ((fun l => acc ++ l) <$>
          gather (fun e =>
                    match e.2 with
                    | File _ => Ok [p ++ [e.1]]
                    | Dir _ _ => collect (p ++ [e.1]) e.2
                    | _ => Ok []
                    end) es).
Proof.
  revert acc. induction es as [|[name x] es IH]; intros acc Hl Hrec.
  - simpl. by rewrite (right_id_L [] (++)).
  - assert (forall acc', walk_loop fs rec ((fun e => p ++ [e.1]) <$> es) acc' =
      Some ((fun l => acc' ++ l) <$>
              gather (fun e =>
                        match e.2 with
                        | File _ => Ok [p ++ [e.1]]
                        | Dir _ _ => collect (p ++ [e.1]) e.2
                        | _ => Ok []
                        end) es)) as IH'.
    { intros acc'. apply IH.
      - intros n y ?. apply Hl. by right.
      - intros n r0 es0 ?. apply Hrec. by right. }
    clear IH.
    assert (lstat fs (p ++ [name]) = Some x) as Hx by (apply Hl; left).
    cbn [fmap list_fmap walk_loop gather fst snd].
    assert (is_symlink fs (p ++ [name]) =
            match x with Symlink _ => true | _ => false end) as Es.
    { unfold is_symlink. by rewrite Hx. }
    rewrite Es. destruct x as [c|r0 es0|t|].
    + unfold is_file, is_dir. rewrite (stat_not_symlink _ _ Es), Hx.
      rewrite IH'. simpl. destruct (gather _ es); simpl; [|done].
      by rewrite <- (assoc_L (++)).
    + unfold is_file, is_dir. rewrite (stat_not_symlink _ _ Es), Hx.
      rewrite (Hrec name r0 es0) by left.
      destruct (collect (p ++ [name]) (Dir r0 es0)) as [sub|e]; [|done].
      rewrite IH'. simpl. destruct (gather _ es); simpl; [|done].
      by rewrite <- (assoc_L (++)).
    + rewrite IH'. simpl. by destruct (gather _ es).
    + unfold is_file, is_dir. rewrite (stat_not_symlink _ _ Es), Hx.
      rewrite IH'. simpl. by destruct (gather _ es).
Qed.

(** With budget enough, [walk] computes [collect]. *)
Lemma walk_collect (fuel : nat) (fs : node) (p : Path) (d : node) :
  stat fs p = Some d -> wf_node d = true -> height d < fuel ->
  walk fuel fs p = Some (collect p d).
Proof.
  revert p d. induction fuel as [|fuel IH]; intros p d Hs Hwf Hh; [lia|].
  simpl. unfold iterdir. rewrite Hs.
  destruct d as [c|[] es|t|]; try done.
  rewrite walk_loop_gather.
  - by rewrite fmap_app_nil.
  - intros name x Hin. rewrite lstat_snoc, Hs. simpl.
    by destruct (wf_entry _ _ _ _ Hwf Hin) as [-> _].
  - intros name r0 es0 Hin.
    destruct (wf_entry _ _ _ _ Hwf Hin) as (Hl & _ & Hwfx).
    apply IH; [|done|].
    + rewrite stat_not_symlink; unfold is_symlink;
        rewrite lstat_snoc, Hs; simpl; by rewrite Hl.
    + apply (height_entry true) in Hin. lia.
Qed.

Lemma walk_collect_at (fuel : nat) (fs : node) (p : Path) :
  wf_node fs = true -> height fs < fuel ->
  walk fuel fs p = Some (collect_at fs p).
Proof.
  intros Hwf Hh. unfold collect_at.
  destruct (stat fs p) as [d|] eqn:Es.
  - apply walk_collect; [done|by eapply wf_stat_hops|].
    apply stat_hops_height in Es. lia.
  - destruct fuel; [lia|]. simpl. unfold iterdir. by rewrite Es.
Qed.

(** ** Order does not matter to what is collected *)

Lemma res_perm_refl {A : Type} (m : res (list A)) : res_perm m m.
Proof. destruct m; simpl; [reflexivity|done]. Qed.

Lemma res_perm_trans {A : Type} (m1 m2 m3 : res (list A)) :
  res_perm m1 m2 -> res_perm m2 m3 -> res_perm m1 m3.
Proof.
  destruct m1, m2, m3; simpl; try done. intros H1 H2. by rewrite H1.
Qed.

Lemma gather_Permutation {A : Type} (f : A -> res (list Path)) (l l' : list A) :
  l ≡ₚ l' -> res_perm (gather f l) (gather f l').
Proof.
  induction 1 as [|x l l' Hp IH|x y l|l l' l'' _ IH1 _ IH2]; simpl.
  - done.
  - destruct (f x); simpl; [|done].
    destruct (gather f l), (gather f l'); simpl in *; try done.
    by apply Permutation_app_head.
  - destruct (f x), (f y); simpl; try done.
    destruct (gather f l); simpl; [|done].
    rewrite !(assoc_L (++)). apply Permutation_app_tail, Permutation_app_comm.
  - by eapply res_perm_trans.
Qed.

Lemma gather_Forall2 {A B : Type} (f : A -> res (list Path))
  (g : B -> res (list Path)) (l : list A) (k : list B) :
  Forall2 (fun x y => res_perm (f x) (g y)) l k ->
  res_perm (gather f l) (gather g k).
Proof.
  induction 1 as [|x y l k Hxy _ IH]; simpl; [done|].
  destruct (f x), (g y); simpl in *; try done.
  destruct (gather f l), (gather g k); simpl in *; try done.
  by apply Permutation_app.
Qed.

(** The entries of one directory, each with its partner in the reordered
    directory. *)
Lemma reordered_partners (es es' l : list (string * node)) :
  (forall e, e ∈ l -> e ∈ es) ->
  (forall name x, (name, x) ∈ es ->
     exists x', (name, x') ∈ es' /\ reordered x x' = true) ->
  exists k,
    Forall2 (fun e e' => e ∈ es /\ e.1 = e'.1 /\ reordered e.2 e'.2 = true /\
                         e' ∈ es') l k.
Proof.
  intros Hsub Hes. induction l as [|[name x] l IH].
  - exists []. constructor.
  - destruct (Hes name x) as (x' & Hin & Hx); [apply Hsub; left|].
    destruct IH as [k Hk]; [intros e ?; apply Hsub; by right|].
    exists ((name, x') :: k). constructor; [|done].
    split_and!; [apply Hsub; left|done..].
Qed.

Lemma collect_reordered (n n' : node) (p : Path) :
  wf_node n = true -> wf_node n' = true -> reordered n n' = true ->
  res_perm (collect p n) (collect p n').
Proof.
  remember (S (height n)) as bound eqn:Hb.
  assert (height n < bound) as Hh by lia. clear Hb.
  revert n n' p Hh. induction bound as [|bound IH]; intros n n' p Hh; [lia|].
  intros Hwf Hwf' Hre. pose proof (reordered_leaf _ _ Hre) as Hk.
  destruct n as [c|r es|t|]; subst; try apply res_perm_refl.
  destruct Hk as [es' ->]. destruct r; [|done].
  destruct (reordered_partners es es' es) as [k Hk]; [done|..].
  { intros name x. by apply (reordered_partner true es es'). }
  set (F := fun q (e : string * node) =>
              match e.2 with
              | File _ => Ok [q ++ [e.1]]
              | Dir _ _ => collect (q ++ [e.1]) e.2
              | _ => Ok []
              end).
  change (res_perm (gather (F p) es) (gather (F p) es')).
  apply (res_perm_trans _ (gather (F p) k)).
  - apply gather_Forall2. eapply Forall2_impl; [apply Hk|].
    intros [name x] [name' x'] (Hin & Hn & Hx & Hin'). simpl in Hn, Hx.
    subst name'.
    destruct (wf_entry _ _ _ _ Hwf Hin) as (_ & _ & Hwfx).
    destruct (wf_entry _ _ _ _ Hwf' Hin') as (_ & _ & Hwfx').
    pose proof (reordered_leaf _ _ Hx) as Hkx. unfold F.
    destruct x as [c|r0 es0|t|]; subst; lazy beta iota delta [fst snd];
      try apply res_perm_refl.
    destruct Hkx as [es0' ->]. apply IH; [|done..].
    apply (height_entry true) in Hin. lia.
  - apply gather_Permutation, submseteq_length_Permutation.
    + apply NoDup_submseteq.
      * assert (k.*1 = es.*1) as Hnames.
        { clear -Hk. induction Hk as [|e e' l k (_ & He & _) _ IH];
            [done|]. rewrite !fmap_cons. by f_equal. }
        assert (NoDup k.*1) as Hnd by (rewrite Hnames; by eapply wf_NoDup).
        by apply NoDup_fmap_1 in Hnd.
      * intros e' He'. clear -Hk He'.
        induction Hk as [|e0 e0' l k (_ & _ & _ & Hin) _ IH];
          [by apply elem_of_nil in He'|].
        apply elem_of_cons in He' as [->|He']; [done|by apply IH].
    + destruct (reordered_dir _ _ _ Hre) as (? & [= <-] & Hlen & _).
      apply Forall2_length in Hk. lia.
Qed.

Lemma collect_at_reordered (fs fs' : node) (p : Path) :
  wf_node fs = true -> wf_node fs' = true -> reordered fs fs' = true ->
  res_perm (collect_at fs p) (collect_at fs' p).
Proof.
  intros Hwf Hwf' Hre. unfold collect_at.
  pose proof (same_entry_stat fs fs' Hwf Hwf' Hre p) as Hs.
  destruct (stat fs p) as [d|] eqn:E, (stat fs' p) as [d'|] eqn:E';
    try done.
  apply collect_reordered; [| |done].
  - exact (wf_stat_hops _ _ _ _ Hwf E).
  - exact (wf_stat_hops _ _ _ _ Hwf' E').
Qed.

(** ** Names of files *)

Lemma slash_split (x x' s s' : string) :
  slash_free x = true -> slash_free x' = true ->
  String.append x (String "/" s) = String.append x' (String "/" s') ->
  x = x' /\ s = s'.
Proof.
  revert x'. induction x as [|a x IH]; intros [|c x']; simpl.
  - by intros _ _ [= ->].
  - intros _ [Hc _]%andb_prop [= <- _]. done.
  - intros [Ha _]%andb_prop _ [= -> _]. done.
  - intros [_ Hx]%andb_prop [_ Hx']%andb_prop [= -> E].
    destruct (IH x' Hx Hx' E) as [-> ->]. done.
Qed.

Lemma slash_inside (x x' s' : string) :
  slash_free x = true -> x <> String.append x' (String "/" s').
Proof.
  revert x'. induction x as [|a x IH]; intros [|c x']; simpl; try done.
  - intros [Ha _]%andb_prop [= -> _]. done.
  - intros [_ Hx]%andb_prop [= _ E]. by eapply IH.
Qed.

Lemma concat_cons (x y : string) (l : list string) :
  String.concat "/" (x :: y :: l) =
  String.append x (String "/" (String.concat "/" (y :: l))).
Proof. done. Qed.

(** Two relative paths with the same text are the same path, when no part
    holds a slash. *)
Lemma str_inj (p p' : Path) :
  p <> [] -> p' <> [] ->
  Forall (fun n => slash_free n = true) p ->
  Forall (fun n => slash_free n = true) p' ->
  str p = str p' -> p = p'.
Proof.
  revert p'. induction p as [|x p IH]; intros [|x' p']; try done.
  intros _ _ [Hx Hp]%Forall_cons [Hx' Hp']%Forall_cons. unfold str.
  destruct p as [|y p], p' as [|y' p'].
  - simpl. by intros ->.
  - intros E.
    change (x = String.append x' (String "/" (String.concat "/" (y' :: p'))))
      in E.
    by apply slash_inside in E.
  - intros E.
    change (String.append x (String "/" (String.concat "/" (y :: p))) = x')
      in E.
    symmetry in E. by apply slash_inside in E.
  - rewrite (concat_cons x y p), (concat_cons x' y' p').
    intros [-> E]%slash_split; [|done..].
    f_equal. by apply IH.
Qed.

Lemma relative_to_app (root rel : Path) :
  relative_to (root ++ rel) root = Ok rel.
Proof.
  induction root as [|r root IH]; simpl; [by destruct rel|].
  by rewrite String.eqb_refl.
Qed.

Lemma genuine_slash_free (fs : node) (dir rel : Path) :
  wf_node fs = true -> genuine fs dir rel ->
  Forall (fun n => slash_free n = true) rel.
Proof.
  intros Hwf.
  assert (forall q name x, lstat fs (q ++ [name]) = Some x ->
            slash_free name = true) as Hname.
  { intros q name x. rewrite lstat_snoc.
    destruct (stat fs q) as [d|] eqn:Es; simpl; [|done].
    apply wf_stat_hops in Es; [|done].
    destruct d as [|r es| |]; simpl; try done.
    intros Hin%lookup_entry_elem. by eapply wf_entry. }
  induction 1; repeat constructor; eauto.
Qed.

(** ** The merged record does not depend on the order of the lists *)

Lemma comprehension_Permutation {A B : Type} (f : A -> res B) (l l' : list A) :
  l ≡ₚ l' -> res_perm (comprehension f l) (comprehension f l').
Proof.
  induction 1 as [|x l l' Hp IH|x y l|l l' l'' _ IH1 _ IH2]; simpl.
  - done.
  - destruct (f x); simpl; [|done].
    destruct (comprehension f l), (comprehension f l'); simpl in *; try done.
    by constructor.
  - destruct (f x), (f y); simpl; try done.
    destruct (comprehension f l); simpl; [|done]. apply perm_swap.
  - by eapply res_perm_trans.
Qed.

Lemma comprehension_elem {A B : Type} (f : A -> res B) (l : list A)
  (ys : list B) (y : B) :
  comprehension f l = Ok ys -> y ∈ ys -> exists x, x ∈ l /\ f x = Ok y.
Proof.
  revert ys. induction l as [|x l IH]; intros ys; simpl.
  - intros [= <-] ?%elem_of_nil. done.
  - destruct (f x) as [y0|] eqn:Ex; simpl; [|done].
    destruct (comprehension f l) as [ys0|]; simpl; [|done].
    intros [= <-] [->|Hin]%elem_of_cons.
    + exists x. split; [left|done].
    + destruct (IH ys0 eq_refl Hin) as (x' & ? & ?).
      exists x'. split; [by right|done].
Qed.

Lemma last_named_functional (pairs : list (string * string)) (n c : string) :
  functional pairs -> (n, c) ∈ pairs -> last_named n pairs = Some c.
Proof.
  intros Hf Hin.
  destruct (last_named n pairs) as [c'|] eqn:E.
  - apply last_named_elem in E. f_equal. by eapply Hf.
  - assert (is_Some (last_named n pairs)) as [? ?]; [|congruence].
    apply last_named_is_Some, list_elem_of_fmap. by exists (n, c).
Qed.

Lemma last_named_Permutation (pairs pairs' : list (string * string))
  (n : string) :
  pairs ≡ₚ pairs' -> functional pairs ->
  last_named n pairs = last_named n pairs'.
Proof.
  intros Hp Hf.
  assert (functional pairs') as Hf'.
  { intros m c c'. rewrite <- !Hp. apply Hf. }
  destruct (last_named n pairs) as [c|] eqn:E.
  - apply last_named_elem in E. rewrite Hp in E.
    symmetry. by apply last_named_functional.
  - destruct (last_named n pairs') as [c'|] eqn:E'; [|done].
    apply last_named_elem in E'. rewrite <- Hp in E'.
    apply (last_named_functional _ _ _ Hf) in E'. congruence.
Qed.

Lemma outer_join_Permutation (pa pa' pb pb' : list (string * string)) :
  pa ≡ₚ pa' -> pb ≡ₚ pb' -> functional pa -> functional pb ->
  outer_join pa pb = outer_join pa' pb'.
Proof.
  intros Ha Hb Hfa Hfb. unfold outer_join.
  assert (list_to_set (C := gset string) pa.*1 = list_to_set pa'.*1) as ->.
  { apply list_to_set_perm_L. by rewrite Ha. }
  assert (list_to_set (C := gset string) pb.*1 = list_to_set pb'.*1) as ->.
  { apply list_to_set_perm_L. by rewrite Hb. }
  apply list_fmap_ext. intros _ n _.
  by rewrite (last_named_Permutation pa pa'), (last_named_Permutation pb pb').
Qed.

Section determinism.
Context {H : StreamHash}.
Variables fs fs' : node.
Hypothesis Hwf : wf_node fs = true.
Hypothesis Hwf' : wf_node fs' = true.
Hypothesis Hre : reordered fs fs' = true.

Lemma calc_md5_reordered (file_path : Path) :
  calc_md5 fs' file_path = calc_md5 fs file_path.
Proof. unfold calc_md5. by rewrite (open_rb_reordered fs fs'). Qed.

Lemma named_checksums_reordered (roots : list Path) (i : nat)
  (files : list Path) :
  named_checksums fs' roots i files = named_checksums fs roots i files.
Proof.
  induction files as [|f files IH]; [done|].
  by rewrite !named_checksums_cons, calc_md5_reordered, IH.
Qed.

(** The files [walk] lists under a root have distinct names, so each name
    gets one checksum. *)
Lemma walk_functional (fuel : nat) (roots : list Path) (i : nat) (root : Path)
  (files : list Path) (pairs : list (string * string)) :
  roots !! i = Some root ->
  walk fuel fs root = Some (Ok files) ->
  named_checksums fs roots i files = Ok pairs ->
  functional pairs.
Proof.
  intros Hroot Hw Hn n c c' Hc Hc'.
  destruct (comprehension_elem _ _ _ _ Hn Hc) as (f & Hf & Ef).
  destruct (comprehension_elem _ _ _ _ Hn Hc') as (f' & Hf' & Ef').
  destruct (walk_genuine _ _ _ _ Hw f Hf) as (rel & -> & Hg).
  destruct (walk_genuine _ _ _ _ Hw f' Hf') as (rel' & -> & Hg').
  revert Ef Ef'. unfold file_name, index. rewrite Hroot. simpl.
  rewrite !relative_to_app. simpl.
  destruct (calc_md5 fs (root ++ rel)) as [x|] eqn:Ex; simpl; [|done].
  destruct (calc_md5 fs (root ++ rel')) as [x'|] eqn:Ex'; simpl; [|done].
  intros [= E <-] [= E' <-].
  assert (rel = rel') as <-; [|congruence].
  apply str_inj; [| | | |congruence].
  - exact (proj1 (genuine_parts _ _ _ Hg)).
  - exact (proj1 (genuine_parts _ _ _ Hg')).
  - exact (genuine_slash_free _ _ _ Hwf Hg).
  - exact (genuine_slash_free _ _ _ Hwf Hg').
Qed.

(** On the lists [walk] gives for the two trees, [get_file_hashes] gives
    the same dictionary, or raises for both. *)
Lemma get_file_hashes_reordered (fuel : nat) (root_a root_b : Path)
  (fa fb fa' fb' : list Path) :
  walk fuel fs root_a = Some (Ok fa) ->
  walk fuel fs root_b = Some (Ok fb) ->
  fa ≡ₚ fa' -> fb ≡ₚ fb' ->
  match get_file_hashes fs fa fb [root_a; root_b],
        get_file_hashes fs' fa' fb' [root_a; root_b] with
  | Ok d, Ok d' => d = d'
  | Raise _, Raise _ => True
  | _, _ => False
  end.
Proof.
  intros Hwa Hwb Ha Hb. set (roots := [root_a; root_b]).
  pose proof (comprehension_Permutation
    (fun file => checksum ← calc_md5 fs file;
                 name ← file_name roots 0 file; Ok (name, checksum))
    fa fa' Ha) as Hpa.
  pose proof (comprehension_Permutation
    (fun file => checksum ← calc_md5 fs file;
                 name ← file_name roots 1 file; Ok (name, checksum))
    fb fb' Hb) as Hpb.
  fold (named_checksums fs roots 0 fa) (named_checksums fs roots 0 fa')
    in Hpa.
  fold (named_checksums fs roots 1 fb) (named_checksums fs roots 1 fb')
    in Hpb.
  rewrite <- (named_checksums_reordered roots 0 fa') in Hpa.
  rewrite <- (named_checksums_reordered roots 1 fb') in Hpb.
  revert Hpa Hpb.
  destruct (named_checksums fs roots 0 fa) as [pa|] eqn:Ea,
           (named_checksums fs' roots 0 fa') as [pa'|] eqn:Ea'; try done;
  destruct (named_checksums fs roots 1 fb) as [pb|] eqn:Eb,
           (named_checksums fs' roots 1 fb') as [pb'|] eqn:Eb'; try done;
  simpl; intros Hpa Hpb.
  1: rewrite (get_file_hashes_total _ _ _ _ _ _ Ea Eb),
             (get_file_hashes_total _ _ _ _ _ _ Ea' Eb');
     apply outer_join_Permutation; [done|done| |];
     [exact (walk_functional fuel roots 0 root_a fa pa eq_refl Hwa Ea)
     |exact (walk_functional fuel roots 1 root_b fb pb eq_refl Hwb Eb)].
  all: destruct (get_file_hashes fs fa fb roots) as [d|] eqn:Ed;
    [apply get_file_hashes_Ok in Ed as (? & ? & ? & ? & _); congruence|];
    destruct (get_file_hashes fs' fa' fb' roots) as [d'|] eqn:Ed';
    [apply get_file_hashes_Ok in Ed' as (? & ? & ? & ? & _); congruence|];
    done.
Qed.

End determinism.

(** Whatever [walk] returns is what the recursion on the tree collects. *)
Lemma walk_is_collect_at (fuel : nat) (fs : node) (p : Path)
  (r : res (list Path)) :
  wf_node fs = true -> walk fuel fs p = Some r -> r = collect_at fs p.
Proof.
  intros Hwf Hw.
  apply (walk_mono fuel (S (Nat.max fuel (height fs)))) in Hw; [|lia].
  rewrite walk_collect_at in Hw; [congruence|done|lia].
Qed.

(** A well-formed tree is a reordering of itself. *)
Lemma reordered_refl (n : node) : wf_node n = true -> reordered n n = true.
Proof.
  remember (S (height n)) as bound eqn:Hb.
  assert (height n < bound) as Hh by lia. clear Hb.
  revert n Hh. induction bound as [|bound IH]; intros n Hh Hwf; [lia|].
  destruct n as [c|r es|t|]; simpl;
    [by apply bool_decide_eq_true| |by apply bool_decide_eq_true|done].
  rewrite Bool.eqb_reflx, Nat.eqb_refl. simpl.
  assert (forall l, (forall e, e ∈ l -> e ∈ es) ->
    (fix go (l : list (string * node)) : bool :=
       match l with
       | [] => true
       | (name, x) :: l' =>
           match lookup_entry name es with
           | Some x' => reordered x x'
           | None => false
           end && go l'
       end) l = true) as Hgo; [|by apply Hgo].
  induction l as [|[name x] l IHl]; intros Hsub; [done|].
  assert ((name, x) ∈ es) as Hin by (apply Hsub; left).
  destruct (wf_entry _ _ _ _ Hwf Hin) as (-> & _ & Hwfx).
  rewrite IH, IHl; [done| |apply (height_entry r) in Hin; lia|done].
  intros e ?. apply Hsub. by right.
Qed.

(** C7. The output does not depend on the order in which directories list
    their entries.  On two well-formed trees that hold the same entries under
    the same names, two runs with the same arguments print the same, and
    both end normally or both raise: whenever both return, and they do
    return with budgets above the heights of the trees.  A tree is such a
    reordering of itself, so this holds for two runs on the same tree. *)
Theorem output_is_order_independent {H : StreamHash} (fs fs' : node)
  (fuel fuel' : nat) (argv : list string) (out : list printed) :
  wf_node fs = true -> wf_node fs' = true -> reordered fs fs' = true ->
  (forall out1 out2 r1 r2,
     program fuel fs argv out = Some (out1, r1) ->
     program fuel' fs' argv out = Some (out2, r2) ->
     out1 = out2 /\ is_ok r1 = is_ok r2) /\
  (height fs < fuel -> height fs' < fuel' ->
   exists out' r1 r2,
     program fuel fs argv out = Some (out', r1) /\
     program fuel' fs' argv out = Some (out', r2) /\
     is_ok r1 = is_ok r2).
Proof.
  intros Hwf Hwf' Hre.
  assert (forall out1 out2 r1 r2,
     program fuel fs argv out = Some (out1, r1) ->
     program fuel' fs' argv out = Some (out2, r2) ->
     out1 = out2 /\ is_ok r1 = is_ok r2) as Hsame.
  { intros out1 out2 r1 r2. unfold program.
    destruct (decide (length argv <> 3)) as [_|_];
      [by intros [= <- <-] [= <- <-]|].
    unfold main, lift, lift_fuel, differ, pprint, index, mbind, io_bind.
    destruct (argv !! 1) as [a1|]; simpl; [|by intros [= <- <-] [= <- <-]].
    destruct (argv !! 2) as [a2|]; simpl; [|by intros [= <- <-] [= <- <-]].
    set (root_a := Path_of_str a1). set (root_b := Path_of_str a2).
    pose proof (collect_at_reordered fs fs' root_a Hwf Hwf' Hre) as Ha.
    pose proof (collect_at_reordered fs fs' root_b Hwf Hwf' Hre) as Hb.
    destruct (walk fuel fs root_a) as [ra|] eqn:Ea; [|done].
    destruct (walk fuel' fs' root_a) as [ra'|] eqn:Ea'; [|by destruct ra].
    pose proof (walk_is_collect_at _ _ _ _ Hwf Ea) as Era.
    pose proof (walk_is_collect_at _ _ _ _ Hwf' Ea') as Era'.
    rewrite <- Era, <- Era' in Ha.
    destruct ra as [fa|ea], ra' as [fa'|ea']; simpl in *; try done;
      [|by intros [= <- <-] [= <- <-]].
    destruct (walk fuel fs root_b) as [rb|] eqn:Eb; [|done].
    destruct (walk fuel' fs' root_b) as [rb'|] eqn:Eb'; [|by destruct rb].
    pose proof (walk_is_collect_at _ _ _ _ Hwf Eb) as Erb.
    pose proof (walk_is_collect_at _ _ _ _ Hwf' Eb') as Erb'.
    rewrite <- Erb, <- Erb' in Hb.
    destruct rb as [fb|eb], rb' as [fb'|eb']; simpl in *; try done;
      [|by intros [= <- <-] [= <- <-]].
    pose proof (get_file_hashes_reordered fs fs' Hwf Hwf' Hre fuel
                  root_a root_b fa fb fa' fb' Ea Eb Ha Hb) as Hg.
    destruct (get_file_hashes fs fa fb _) as [d|],
             (get_file_hashes fs' fa' fb' _) as [d'|]; simpl in *; try done.
    - subst d'. by intros [= <- <-] [= <- <-].
    - by intros [= <- <-] [= <- <-]. }
  split; [done|]. intros Hfuel Hfuel'.
  destruct (program_returns fuel fs argv out Hfuel) as [[out1 r1] E1].
  destruct (program_returns fuel' fs' argv out Hfuel') as [[out2 r2] E2].
  destruct (Hsame _ _ _ _ E1 E2) as [<- Hok]. by exists out1, r1, r2.
Qed.

Lemma output_is_order_independent_witness :
  wf_node example_fs = true /\
  wf_node example_fs_reordered = true /\
  reordered example_fs example_fs_reordered = true /\
  height example_fs < 4 /\
  height example_fs_reordered < 5 /\
  exists out' r1 r2,
    program (H := fnv1a) 4 example_fs ["firmware_diff.py"; "A"; "B"] [] =
      Some (out', r1) /\
    program (H := fnv1a) 5 example_fs_reordered
      ["firmware_diff.py"; "A"; "B"] [] = Some (out', r2) /\
    is_ok r1 = is_ok r2.
Proof.
  split_and!; [vm_compute; reflexivity..|vm_compute; lia|vm_compute; lia|].
  apply (output_is_order_independent (H := fnv1a) example_fs
           example_fs_reordered 4 5 ["firmware_diff.py"; "A"; "B"] []);
    [vm_compute; reflexivity..|vm_compute; lia|vm_compute; lia].
Defined.

(** The run on the example tree and on its reordering. *)
Example run_reordered :
  program (H := fnv1a) 4 example_fs ["firmware_diff.py"; "A"; "B"] [] =
    Some (example_output, Ok tt) /\
  program (H := fnv1a) 5 example_fs_reordered
    ["firmware_diff.py"; "A"; "B"] [] = Some (example_output, Ok tt).
Proof. split; vm_compute; reflexivity. Qed.

(** * Further properties *)

(** ** The chunks [calc_md5] feeds to the hash object *)

Lemma log_loop_chunks (size : nat) (f : bytes) (h : list bytes) :
  0 < size ->
  exists chunks,
    hash_loop (H := log_hash) size h f = h ++ chunks /\
    concat chunks = f /\
    Forall (fun c => 0 < length c <= size) chunks /\
    (forall i c, chunks !! i = Some c -> S i < length chunks ->
                 length c = size).
Proof.
  intros Hsize. remember (length f) as n eqn:Hn.
  revert f h Hn. induction n as [n IH] using lt_wf_ind. intros f h ->.
  rewrite hash_loop_once. unfold read. simpl.
  destruct (take size f) as [|c cs] eqn:E.
  - apply take_nil_inv in E as [->| ->]; [lia|].
    exists []. rewrite (right_id_L [] (++)).
    split_and!; [done|done|constructor|]. by intros i c ?.
  - assert (length (c :: cs) = size `min` length f) as Hlen
      by (by rewrite <- E, length_take).
    assert (f <> []) as Hf by (intros ->; by rewrite take_nil in E).
    assert (0 < length f) as Hpos by (destruct f; [done|simpl; lia]).
    destruct (IH (length (drop size f))) with (f := drop size f)
      (h := h ++ [c :: cs]) as (chunks & Hloop & Hcat & Hall & Hfull);
      [rewrite length_drop; lia|done|].
    exists ((c :: cs) :: chunks). split_and!.
    + transitivity ((h ++ [c :: cs]) ++ chunks); [exact Hloop|].
      by rewrite <- (assoc_L (++)).
    + cbn [concat]. rewrite Hcat, <- E. apply take_drop.
    + constructor; [|done]. rewrite Hlen. simpl in Hlen. lia.
    + intros [|i] c' Hi Hlt.
      * injection Hi as <-. rewrite Hlen.
        destruct chunks as [|c2 chunks]; [simpl in Hlt; lia|].
        apply Forall_cons in Hall as [Hc2 _].
        assert (length (drop size f) <> 0) as Hd.
        { rewrite <- Hcat. cbn [concat]. rewrite length_app. lia. }
        rewrite length_drop in Hd. lia.
      * apply (Hfull i); [done|]. simpl in Hlt. lia.
Qed.

(** X1. [calc_md5] reads a file in chunks that are never empty and never
    longer than the chunk size, all but the last exactly of that size, and
    that put end to end are the content of the file: the hash object is
    called once per chunk, in order. *)
Theorem hash_loop_feeds_bounded_chunks (size : nat) (f : bytes) :
  0 < size ->
  let chunks := hash_loop (H := log_hash) size md5 f in
  concat chunks = f /\
  Forall (fun c => 0 < length c <= size) chunks /\
  (forall i c, chunks !! i = Some c -> S i < length chunks ->
               length c = size) /\
  (f = [] -> chunks = []).
Proof.
  intros Hsize chunks.
  destruct (log_loop_chunks size f [] Hsize) as (cs & E & Hcat & Hall & Hfull).
  subst chunks. change (@md5 log_hash) with (@nil bytes). rewrite E. simpl.
  split_and!; [done..|].
  intros ->. destruct cs as [|c cs]; [done|].
  apply Forall_cons in Hall as [Hc _]. cbn [concat] in Hcat.
  destruct c; [simpl in Hc; lia|done].
Qed.

Lemma hash_loop_feeds_bounded_chunks_witness :
  0 < 3 /\
  let chunks := hash_loop (H := log_hash) 3 md5 (bytes_of "firmware") in
  concat chunks = bytes_of "firmware" /\
  Forall (fun c => 0 < length c <= 3) chunks /\
  (forall i c, chunks !! i = Some c -> S i < length chunks ->
               length c = 3) /\
  (bytes_of "firmware" = [] -> chunks = []).
Proof.
  split; [lia|].
  apply (hash_loop_feeds_bounded_chunks 3 (bytes_of "firmware")). lia.
Defined.

(** ** What [walk] returns, and when it fails *)

(** X2. With a recursion budget above the height of the directory, [walk]
    returns what the depth-first recursion on the tree collects: the
    entries are visited in the order the directory lists them, a regular
    file is listed at its place, the files of a subdirectory at the place of
    the subdirectory, and an unlistable subdirectory ends the walk.  Only
    the entries are tested for links: the directory walked may itself be
    reached through one. *)
Theorem walk_is_depth_first (fuel : nat) (fs : node) (dir_path : Path)
  (d : node) :
  stat fs dir_path = Some d -> wf_node d = true -> height d < fuel ->
  walk fuel fs dir_path = Some (collect dir_path d).
Proof. apply walk_collect. Qed.

Lemma walk_is_depth_first_witness :
  stat linked_fs ["L"] =
    Some (Dir true
            [("a.bin", File (Some (bytes_of "1")));
             ("sub", Dir true [("d.bin", File (Some (bytes_of "5")))])]) /\
  is_symlink linked_fs ["L"] = true /\
  walk 3 linked_fs ["L"] = Some (Ok [["L"; "a.bin"]; ["L"; "sub"; "d.bin"]]).
Proof.
  split; [reflexivity|]. split; [reflexivity|].
  apply (walk_is_depth_first 3 linked_fs ["L"]
           (Dir true
              [("a.bin", File (Some (bytes_of "1")));
               ("sub", Dir true [("d.bin", File (Some (bytes_of "5")))])]));
    [reflexivity|reflexivity|vm_compute; lia].
Defined.

Lemma gather_Ok_elem {A : Type} (f : A -> res (list Path)) (l : list A)
  (ys : list Path) (x : A) :
  gather f l = Ok ys -> x ∈ l ->
  exists xs, f x = Ok xs /\ forall y, y ∈ xs -> y ∈ ys.
Proof.
  revert ys. induction l as [|x0 l IH]; intros ys; simpl.
  - by intros _ ?%elem_of_nil.
  - destruct (f x0) as [here|] eqn:E0; simpl; [|done].
    destruct (gather f l) as [rest|]; simpl; [|done].
    intros [= <-] [->|Hin]%elem_of_cons.
    + exists here. split; [done|]. intros y ?. apply elem_of_app. by left.
    + destruct (IH rest eq_refl Hin) as (xs & Ex & Hxs).
      exists xs. split; [done|]. intros y ?. apply elem_of_app. right. auto.
Qed.

(** Every file reached through real directories is collected. *)
Lemma collect_complete (fs : node) (p rel : Path) :
  genuine fs p rel ->
  forall d files,
    stat fs p = Some d -> wf_node d = true -> collect p d = Ok files ->
    p ++ rel ∈ files.
Proof.
  induction 1 as [p name c Hl|p name r0 es0 rel Hl Hg IH];
    intros d files Hs Hwf Hc;
    rewrite lstat_snoc, Hs in Hl; simpl in Hl;
    destruct d as [|[] es| |]; try done; simpl in Hl, Hc;
    apply lookup_entry_elem in Hl as Hin;
    destruct (gather_Ok_elem _ _ _ _ Hc Hin) as (xs & Exs & Hxs);
    simpl in Exs.
  - injection Exs as <-. apply Hxs. left.
  - rewrite cons_middle, (assoc_L (++)). apply Hxs.
    apply (IH (Dir r0 es0)); [|by eapply wf_entry|done].
    rewrite stat_not_symlink; unfold is_symlink;
      rewrite lstat_snoc, Hs; simpl; by rewrite Hl.
Qed.

(** What is collected below a directory lies below it, and nothing is
    collected twice. *)
Lemma collect_NoDup (d : node) (p : Path) (files : list Path) :
  wf_node d = true -> collect p d = Ok files ->
  NoDup files /\ forall f, f ∈ files -> exists rest, f = p ++ rest.
Proof.
  remember (S (height d)) as bound eqn:Hb.
  assert (height d < bound) as Hh by lia. clear Hb.
  revert d p files Hh.
  induction bound as [|bound IH]; intros d p files Hh Hwf; [lia|].
  destruct d as [|[] es| |]; try done.
  set (F := fun e : string * node =>
              match e.2 with
              | File _ => Ok [p ++ [e.1]]
              | Dir _ _ => collect (p ++ [e.1]) e.2
              | _ => Ok []
              end).
  change (gather F es = Ok files -> NoDup files /\
          forall f, f ∈ files -> exists rest, f = p ++ rest).
  assert (forall l ys, (forall e, e ∈ l -> e ∈ es) -> NoDup l.*1 ->
            gather F l = Ok ys ->
            NoDup ys /\
            forall f, f ∈ ys ->
              exists name rest, f = p ++ name :: rest /\ name ∈ l.*1)
    as Hgen.
  { induction l as [|[name x] l IHl]; intros ys Hsub Hnd; simpl.
    - intros [= <-]. split; [constructor|]. by intros f ?%elem_of_nil.
    - destruct (F (name, x)) as [here|] eqn:Ehere; simpl; [|done].
      destruct (gather F l) as [rest|] eqn:Erest; simpl; [|done].
      intros [= <-]. apply NoDup_cons in Hnd as [Hname Hnd].
      destruct (IHl rest) as [Hnd_rest Hrest];
        [intros e ?; apply Hsub; by right|done|done|].
      assert ((name, x) ∈ es) as Hin by (apply Hsub; left).
      destruct (wf_entry _ _ _ _ Hwf Hin) as (_ & _ & Hwfx).
      assert (NoDup here /\
              forall f, f ∈ here -> exists r, f = p ++ name :: r)
        as [Hnd_here Hhere].
      { unfold F in Ehere. simpl in Ehere.
        destruct x as [c|r0 es0|t|].
        - injection Ehere as <-. split; [apply NoDup_singleton|].
          intros f ->%list_elem_of_singleton. by exists [].
        - destruct (IH (Dir r0 es0) (p ++ [name]) here) as [? Hpre];
            [apply (height_entry true) in Hin; lia|done|done|].
          split; [done|]. intros f Hf. destruct (Hpre f Hf) as [r ->].
          exists r. by rewrite <- (assoc_L (++)).
        - injection Ehere as <-. split; [constructor|].
          by intros f ?%elem_of_nil.
        - injection Ehere as <-. split; [constructor|].
          by intros f ?%elem_of_nil. }
      split.
      + apply NoDup_app. split_and!; [done| |done].
        intros f Hf1 Hf2. destruct (Hhere f Hf1) as [r1 ->].
        destruct (Hrest _ Hf2) as (name' & r2 & E & Hname').
        apply app_inv_head in E. injection E as -> _. done.
      + intros f [Hf|Hf]%elem_of_app.
        * destruct (Hhere f Hf) as [r ->]. exists name, r.
          split; [done|]. left.
        * destruct (Hrest f Hf) as (name' & r & -> & ?).
          exists name', r. split; [done|]. by right. }
  intros Hg. destruct (Hgen es files) as [Hnd Hpre];
    [done|by eapply wf_NoDup|done|].
  split; [done|]. intros f Hf. destruct (Hpre f Hf) as (name & r & -> & _).
  by exists (name :: r).
Qed.

(** X3. On a well-formed tree, the list [walk] returns holds every regular
    file that is reached from the directory through real directories, and
    holds no path twice. *)
Theorem walk_lists_each_file_once (fuel : nat) (fs : node) (dir_path : Path)
  (files : list Path) :
  wf_node fs = true ->
  walk fuel fs dir_path = Some (Ok files) ->
  NoDup files /\
  forall rel, genuine fs dir_path rel -> dir_path ++ rel ∈ files.
Proof.
  intros Hwf Hw. apply walk_is_collect_at in Hw; [|done].
  unfold collect_at in Hw. destruct (stat fs dir_path) as [d|] eqn:Es; [|done].
  pose proof (wf_stat_hops _ _ _ _ Hwf Es) as Hwfd. split.
  - by apply (collect_NoDup d dir_path).
  - intros rel Hg. by apply (collect_complete fs dir_path rel Hg d).
Qed.

Lemma walk_lists_each_file_once_witness :
  wf_node example_fs = true /\
  walk 4 example_fs ["A"] = Some (Ok example_files_a) /\
  NoDup example_files_a /\
  forall rel, genuine example_fs ["A"] rel -> ["A"] ++ rel ∈ example_files_a.
Proof.
  split; [reflexivity|]. split; [reflexivity|].
  apply (walk_lists_each_file_once 4 example_fs ["A"] example_files_a);
    reflexivity.
Defined.

(** The recursion on the tree ends normally exactly on a listable
    directory, and otherwise with a permission error. *)
Lemma collect_listable (d : node) (p : Path) (r : bool)
  (es : list (string * node)) :
  d = Dir r es ->
  if listable d then is_ok (collect p d) = true
  else collect p d = Raise PermissionError.
Proof.
  remember (S (height d)) as bound eqn:Hb.
  assert (height d < bound) as Hh by lia. clear Hb.
  revert d p r es Hh.
  induction bound as [|bound IH]; intros d p r es Hh ->; [lia|].
  destruct r; [|done]. simpl listable.
  set (go := fix go (es : list (string * node)) : bool :=
               match es with
               | [] => true
               | (_, x) :: es' => listable x && go es'
               end).
  set (F := fun e : string * node =>
              match e.2 with
              | File _ => Ok [p ++ [e.1]]
              | Dir _ _ => collect (p ++ [e.1]) e.2
              | _ => Ok []
              end).
  change (if go es then is_ok (gather F es) = true
          else gather F es = Raise PermissionError).
  assert (forall l, (forall e, e ∈ l -> e ∈ es) ->
            if go l then is_ok (gather F l) = true
            else gather F l = Raise PermissionError) as Hgen;
    [|by apply Hgen].
  induction l as [|[name x] l IHl]; intros Hsub; [done|].
  assert ((name, x) ∈ es) as Hin by (apply Hsub; left).
  assert (if listable x then is_ok (F (name, x)) = true
          else F (name, x) = Raise PermissionError) as Hx.
  { unfold F. simpl. destruct x as [c|r0 es0|t|]; try done.
    apply (IH _ _ r0 es0); [|done].
    apply (height_entry true) in Hin. lia. }
  specialize (IHl (fun e He => Hsub e (list_elem_of_further _ _ _ He))).
  simpl. destruct (listable x); simpl.
  - destruct (F (name, x)) as [here|]; [|done]. simpl.
    destruct (go l); [|by rewrite IHl].
    by destruct (gather F l).
  - by rewrite Hx.
Qed.

(** X4. On a well-formed directory tree, [walk] with budget enough ends
    normally exactly when every directory reached through real directories
    can be listed; one that cannot makes the whole walk raise
    [PermissionError], whatever else the tree holds. *)
Theorem walk_fails_iff_unlistable (fuel : nat) (fs : node) (dir_path : Path)
  (r : bool) (es : list (string * node)) :
  stat fs dir_path = Some (Dir r es) ->
  wf_node (Dir r es) = true ->
  height (Dir r es) < fuel ->
  if listable (Dir r es)
  then exists files, walk fuel fs dir_path = Some (Ok files)
  else walk fuel fs dir_path = Some (Raise PermissionError).
Proof.
  intros Hs Hwf Hh. rewrite (walk_collect fuel fs dir_path _ Hs Hwf Hh).
  pose proof (collect_listable (Dir r es) dir_path r es eq_refl) as Hl.
  destruct (listable (Dir r es)); [|by rewrite Hl].
  destruct (collect dir_path (Dir r es)) as [files|]; [eauto|done].
Qed.

Lemma walk_fails_iff_unlistable_witness :
  stat locked_fs ["A"] =
    Some (Dir true
            [("secret", Dir false [("k", File (Some (bytes_of "9")))])]) /\
  listable (Dir true
              [("secret", Dir false [("k", File (Some (bytes_of "9")))])])
    = false /\
  walk 3 locked_fs ["A"] = Some (Raise PermissionError).
Proof.
  split; [reflexivity|]. split; [reflexivity|].
  apply (walk_fails_iff_unlistable 3 locked_fs ["A"] true
           [("secret", Dir false [("k", File (Some (bytes_of "9")))])]);
    [reflexivity|reflexivity|vm_compute; lia].
Defined.

(** ** The exceptions a run can end with *)




Lemma comprehension_Ok {A B : Type} (f : A -> res B) (l : list A) :
  (forall x, x ∈ l -> is_ok (f x) = true) ->
  exists ys, comprehension f l = Ok ys /\
    forall x y, x ∈ l -> f x = Ok y -> y ∈ ys.
Proof.
  induction l as [|x l IH]; intros Hok; simpl.
  - exists []. split; [done|]. by intros ?? ?%elem_of_nil.
  - destruct IH as (ys & -> & Hys); [intros x' ?; apply Hok; by right|].
    specialize (Hok x (list_elem_of_here _ _)).
    destruct (f x) as [y|] eqn:Ex; [|done]. simpl.
    exists (y :: ys). split; [done|].
    intros x' y' [->|Hin]%elem_of_cons E'.
    + apply elem_of_cons. left. congruence.
    + apply elem_of_cons. right. by eapply Hys.
Qed.

Section errors.
Context {H : StreamHash}.


End errors.

Section run_errors.
Context {H : StreamHash}.

Lemma walked_name_ok (fs : node) (roots : list Path) (i : nat) (root : Path)
  (f : Path) :
  roots !! i = Some root ->
  (exists rel, f = root ++ rel /\ genuine fs root rel) ->
  exists rel, f = root ++ rel /\ file_name roots i f = Ok (str rel).
Proof.
  intros Hroot (rel & -> & _). exists rel. split; [done|].
  unfold file_name, index. rewrite Hroot. simpl.
  by rewrite relative_to_app.
Qed.




End run_errors.


(** ** The merged dictionary, entry by entry *)

Lemma comprehension_elem_of {A B : Type} (f : A -> res B) (l : list A)
  (ys : list B) (x : A) :
  comprehension f l = Ok ys -> x ∈ l -> exists y, f x = Ok y /\ y ∈ ys.
Proof.
  revert ys. induction l as [|x0 l IH]; intros ys; simpl.
  - by intros _ ?%elem_of_nil.
  - destruct (f x0) as [y0|] eqn:E0; simpl; [|done].
    destruct (comprehension f l) as [ys0|]; simpl; [|done].
    intros [= <-] [->|Hin]%elem_of_cons.
    + exists y0. split; [done|left].
    + destruct (IH ys0 eq_refl Hin) as (y & ? & ?).
      exists y. split; [done|by right].
Qed.

Lemma comprehension_NoDup {A B : Type} (f : A -> res B) (l : list A)
  (ys : list B) :
  NoDup l ->
  (forall x x' y, x ∈ l -> x' ∈ l -> f x = Ok y -> f x' = Ok y -> x = x') ->
  comprehension f l = Ok ys -> NoDup ys.
Proof.
  revert ys. induction l as [|x l IH]; intros ys Hnd Hinj; simpl.
  - intros [= <-]. constructor.
  - apply NoDup_cons in Hnd as [Hx Hnd].
    destruct (f x) as [y|] eqn:Ex; simpl; [|done].
    destruct (comprehension f l) as [ys0|] eqn:El; simpl; [|done].
    intros [= <-]. constructor.
    + intros (x' & Hx' & Ex')%(comprehension_elem _ _ _ _ El).
      assert (x = x') as <-; [|done].
      apply (Hinj x x' y); [left|by right|done|done].
    + apply IH; [done| |done]. intros x1 x2 y' ??.
      apply Hinj; by right.
Qed.

Lemma NoDup_functional (pairs : list (string * string)) :
  NoDup pairs.*1 -> functional pairs.
Proof.
  induction pairs as [|[n0 c0] ps IH]; simpl.
  - by intros _ n c c' ?%elem_of_nil.
  - intros [Hn0 Hnd]%NoDup_cons n c c' Hc Hc'.
    apply elem_of_cons in Hc as [Hc|Hc], Hc' as [Hc'|Hc'].
    + congruence.
    + injection Hc as -> ->. destruct Hn0.
      apply list_elem_of_fmap. by exists (n0, c').
    + injection Hc' as -> ->. destruct Hn0.
      apply list_elem_of_fmap. by exists (n0, c).
    + by apply (IH Hnd n).
Qed.

Lemma dict_get_outer_join (pa pb : list (string * string)) (n : string) :
  n ∈ pa.*1 \/ n ∈ pb.*1 ->
  dict_get n (outer_join pa pb) = Some (last_named n pa, last_named n pb).
Proof.
  intros Hn. apply dict_get_NoDup.
  - rewrite keys_outer_join. apply sorted_NoDup.
  - by apply outer_join_elem.
Qed.

Section entries.
Context {H : StreamHash}.

Lemma named_checksums_root (fs : node) (roots roots' : list Path) (i j : nat)
  (files : list Path) :
  roots !! i = roots' !! j ->
  named_checksums fs roots i files = named_checksums fs roots' j files.
Proof.
  intros Hr. induction files as [|f files IH]; [done|].
  rewrite !named_checksums_cons, IH. unfold file_name, index.
  by rewrite Hr.
Qed.

(** The slot a file of one of the lists ends in, when the names of that list
    are distinct. *)
Lemma merged_slot (fs : node) (roots : list Path) (i : nat)
  (files : list Path) (pairs : list (string * string)) (f : Path)
  (n : string) :
  named_checksums fs roots i files = Ok pairs ->
  NoDup pairs.*1 -> f ∈ files -> file_name roots i f = Ok n ->
  exists c, calc_md5 fs f = Ok c /\ last_named n pairs = Some c.
Proof.
  intros Hp Hnd Hf En.
  destruct (comprehension_elem_of _ _ _ _ Hp Hf) as ([n' c] & E & Hin).
  destruct (calc_md5 fs f) as [c0|] eqn:Ec; simpl in E; [|done].
  rewrite En in E. simpl in E. injection E as <- <-.
  exists c0. split; [done|].
  by apply last_named_functional; [apply NoDup_functional|].
Qed.

(** X6. [get_file_hashes] ends normally exactly when the name and the
    checksum of every file of both lists can be computed, and the dictionary
    is then their outer join: one entry per name, in sorted order, holding
    for each side the checksum stored last under that name, or [None]. *)
Theorem get_file_hashes_is_outer_join (fs : node) (a b : list Path)
  (roots : list Path) (d : hash_dict) :
  get_file_hashes fs a b roots = Ok d <->
  exists pa pb,
    named_checksums fs roots 0 a = Ok pa /\
    named_checksums fs roots 1 b = Ok pb /\
    d = outer_join pa pb.
Proof.
  split; [apply get_file_hashes_Ok|].
  intros (pa & pb & Ea & Eb & ->). by apply get_file_hashes_total.
Qed.

(** X7. When the names of each list are distinct, the merged dictionary
    holds under the name of every file of the first list the checksum of
    that file in its first slot, and under the name of every file of the
    second list the checksum of that file in its second slot. *)
Theorem merged_holds_each_checksum (fs : node) (a b : list Path)
  (roots : list Path) (d : hash_dict) (names_a names_b : list string) :
  get_file_hashes fs a b roots = Ok d ->
  comprehension (file_name roots 0) a = Ok names_a ->
  comprehension (file_name roots 1) b = Ok names_b ->
  NoDup names_a -> NoDup names_b ->
  (forall f n, f ∈ a -> file_name roots 0 f = Ok n ->
     exists c h1, calc_md5 fs f = Ok c /\ dict_get n d = Some (Some c, h1)) /\
  (forall f n, f ∈ b -> file_name roots 1 f = Ok n ->
     exists c h0, calc_md5 fs f = Ok c /\ dict_get n d = Some (h0, Some c)).
Proof.
  intros (pa & pb & Ea & Eb & ->)%get_file_hashes_Ok Hna Hnb Hnda Hndb.
  rewrite (named_checksums_names _ _ _ _ _ Ea) in Hna.
  rewrite (named_checksums_names _ _ _ _ _ Eb) in Hnb.
  injection Hna as <-. injection Hnb as <-. split.
  - intros f n Hf En.
    destruct (merged_slot _ _ _ _ _ _ _ Ea Hnda Hf En) as (c & Ec & El).
    exists c, (last_named n pb). split; [done|].
    rewrite dict_get_outer_join, El; [done|].
    left. apply last_named_is_Some. by rewrite El.
  - intros f n Hf En.
    destruct (merged_slot _ _ _ _ _ _ _ Eb Hndb Hf En) as (c & Ec & El).
    exists c, (last_named n pa). split; [done|].
    rewrite dict_get_outer_join, El; [done|].
    right. apply last_named_is_Some. by rewrite El.
Qed.

End entries.

Lemma get_file_hashes_is_outer_join_witness :
  get_file_hashes (H := echo_hash) example_fs example_files_a example_files_b
    [["A"]; ["B"]] = Ok example_merged <->
  exists pa pb,
    named_checksums (H := echo_hash) example_fs [["A"]; ["B"]] 0
      example_files_a = Ok pa /\
    named_checksums (H := echo_hash) example_fs [["A"]; ["B"]] 1
      example_files_b = Ok pb /\
    example_merged = outer_join pa pb.
Proof.
  apply (get_file_hashes_is_outer_join (H := echo_hash) example_fs
           example_files_a example_files_b [["A"]; ["B"]] example_merged).
Defined.

Lemma merged_holds_each_checksum_witness :
  get_file_hashes (H := echo_hash) example_fs example_files_a example_files_b
    [["A"]; ["B"]] = Ok example_merged /\
  comprehension (file_name [["A"]; ["B"]] 0) example_files_a =
    Ok ["a.bin"; "b.bin"; "sub/d.bin"] /\
  comprehension (file_name [["A"]; ["B"]] 1) example_files_b =
    Ok ["c.bin"; "b.bin"; "a.bin"] /\
  (forall f n, f ∈ example_files_a -> file_name [["A"]; ["B"]] 0 f = Ok n ->
     exists c h1, calc_md5 (H := echo_hash) example_fs f = Ok c /\
                  dict_get n example_merged = Some (Some c, h1)) /\
  (forall f n, f ∈ example_files_b -> file_name [["A"]; ["B"]] 1 f = Ok n ->
     exists c h0, calc_md5 (H := echo_hash) example_fs f = Ok c /\
                  dict_get n example_merged = Some (h0, Some c)).
Proof.
  split; [vm_compute; reflexivity|]. split; [reflexivity|].
  split; [reflexivity|].
  apply (merged_holds_each_checksum (H := echo_hash) example_fs
           example_files_a example_files_b [["A"]; ["B"]] example_merged
           ["a.bin"; "b.bin"; "sub/d.bin"] ["c.bin"; "b.bin"; "a.bin"]);
    [vm_compute; reflexivity|reflexivity|reflexivity|..];
    apply (bool_decide_unpack _); vm_compute; exact I.
Defined.

(** ** Names of walked files *)

Lemma walk_NoDup (fuel : nat) (fs : node) (dir_path : Path)
  (files : list Path) :
  wf_node fs = true -> walk fuel fs dir_path = Some (Ok files) ->
  NoDup files.
Proof.
  intros Hwf Hw. apply walk_is_collect_at in Hw; [|done].
  unfold collect_at in Hw. destruct (stat fs dir_path) as [d|] eqn:Es; [|done].
  apply (collect_NoDup d dir_path); [|done]. by eapply wf_stat_hops.
Qed.

(** X8. On a well-formed tree, the relative names computed for the files
    [walk] listed under a root are all distinct: no two files of a tree
    share a key of the dictionary, and no checksum is overwritten. *)
Theorem walked_names_are_distinct (fuel : nat) (fs : node)
  (roots : list Path) (i : nat) (root : Path) (files : list Path) :
  wf_node fs = true ->
  roots !! i = Some root ->
  walk fuel fs root = Some (Ok files) ->
  exists names,
    comprehension (file_name roots i) files = Ok names /\
    NoDup names /\
    forall f, f ∈ files ->
      exists rel, f = root ++ rel /\ file_name roots i f = Ok (str rel).
Proof.
  intros Hwf Hroot Hw.
  assert (forall f, f ∈ files ->
            exists rel, f = root ++ rel /\ genuine fs root rel /\
                        file_name roots i f = Ok (str rel)) as Hfiles.
  { intros f Hf. destruct (walk_genuine _ _ _ _ Hw f Hf) as (rel & -> & Hg).
    exists rel. split_and!; [done..|].
    destruct (walked_name_ok fs roots i root (root ++ rel) Hroot)
      as (rel' & ->%app_inv_head & E); [by exists rel|done]. }
  destruct (comprehension_Ok (file_name roots i) files) as (names & En & _).
  { intros f Hf. destruct (Hfiles f Hf) as (rel & _ & _ & ->). done. }
  exists names. split_and!; [done| |].
  - apply (comprehension_NoDup _ _ _ (walk_NoDup _ _ _ _ Hwf Hw)) in En;
      [done|].
    intros f f' y Hf Hf' E E'.
    destruct (Hfiles f Hf) as (rel & -> & Hg & Er).
    destruct (Hfiles f' Hf') as (rel' & -> & Hg' & Er').
    f_equal. apply str_inj; [| | | |congruence].
    + exact (proj1 (genuine_parts _ _ _ Hg)).
    + exact (proj1 (genuine_parts _ _ _ Hg')).
    + exact (genuine_slash_free _ _ _ Hwf Hg).
    + exact (genuine_slash_free _ _ _ Hwf Hg').
  - intros f Hf. destruct (Hfiles f Hf) as (rel & -> & _ & E). eauto.
Qed.

Lemma walked_names_are_distinct_witness :
  wf_node example_fs = true /\
  [["A"]; ["B"]] !! 0 = Some ["A"] /\
  walk 4 example_fs ["A"] = Some (Ok example_files_a) /\
  exists names,
    comprehension (file_name [["A"]; ["B"]] 0) example_files_a = Ok names /\
    NoDup names /\
    forall f, f ∈ example_files_a ->
      exists rel, f = ["A"] ++ rel /\
                  file_name [["A"]; ["B"]] 0 f = Ok (str rel).
Proof.
  split; [reflexivity|]. split; [reflexivity|]. split; [reflexivity|].
  apply (walked_names_are_distinct 4 example_fs [["A"]; ["B"]] 0 ["A"]
           example_files_a); reflexivity.
Defined.

(** ** What is reported for a file *)

Lemma omap_all_None {A B : Type} (f : A -> option B) (l : list A) :
  (forall x, x ∈ l -> f x = None) -> omap f l = [].
Proof.
  induction l as [|x l IH]; intros Hf; simpl; [done|].
  rewrite Hf by left. apply IH. intros y ?. apply Hf. by right.
Qed.

Lemma report_outer_join (pa pb : list (string * string)) (n : string) :
  n ∈ pa.*1 \/ n ∈ pb.*1 ->
  dict_get n (differ_changes (outer_join pa pb)) =
  classify (last_named n pa, last_named n pb).
Proof.
  intros Hn.
  assert (NoDup (keys (outer_join pa pb))) as Hnd.
  { rewrite keys_outer_join. apply sorted_NoDup. }
  rewrite differ_changes_NoDup, dict_get_changes_of by done.
  by rewrite dict_get_outer_join.
Qed.

Section report.
Context {H : StreamHash}.

(** X9. What [differ] stores for a file, from one end to the other, when the
    names of each list are distinct: a file of the first list whose name
    the second list lacks is Removed with its checksum; a file of the second
    list whose name the first lacks is Added with its checksum; for two
    files under one name there is no record when their checksums are equal,
    as they are when the contents are equal, and else a Modified record
    with both checksums. *)
Theorem report_for_each_file (fs : node) (a b : list Path)
  (roots : list Path) (d : hash_dict) (names_a names_b : list string) :
  get_file_hashes fs a b roots = Ok d ->
  comprehension (file_name roots 0) a = Ok names_a ->
  comprehension (file_name roots 1) b = Ok names_b ->
  NoDup names_a -> NoDup names_b ->
  (forall f n h, f ∈ a -> file_name roots 0 f = Ok n ->
     calc_md5 fs f = Ok h -> n ∉ names_b ->
     dict_get n (differ_changes d) = Some (Change Removed (Some h) None)) /\
  (forall f n h, f ∈ b -> file_name roots 1 f = Ok n ->
     calc_md5 fs f = Ok h -> n ∉ names_a ->
     dict_get n (differ_changes d) = Some (Change Added None (Some h))) /\
  (forall fa fb n ha hb, fa ∈ a -> fb ∈ b ->
     file_name roots 0 fa = Ok n -> file_name roots 1 fb = Ok n ->
     calc_md5 fs fa = Ok ha -> calc_md5 fs fb = Ok hb ->
     dict_get n (differ_changes d) =
     if decide (ha = hb) then None
     else Some (Change Modified (Some ha) (Some hb))) /\
  (forall fa fb n content, fa ∈ a -> fb ∈ b ->
     file_name roots 0 fa = Ok n -> file_name roots 1 fb = Ok n ->
     open_rb fs fa = Ok content -> open_rb fs fb = Ok content ->
     dict_get n (differ_changes d) = None).
Proof.
  intros (pa & pb & Ea & Eb & ->)%get_file_hashes_Ok Hna Hnb Hnda Hndb.
  rewrite (named_checksums_names _ _ _ _ _ Ea) in Hna.
  rewrite (named_checksums_names _ _ _ _ _ Eb) in Hnb.
  injection Hna as <-. injection Hnb as <-.
  assert (forall fa fb n ha hb, fa ∈ a -> fb ∈ b ->
     file_name roots 0 fa = Ok n -> file_name roots 1 fb = Ok n ->
     calc_md5 fs fa = Ok ha -> calc_md5 fs fb = Ok hb ->
     dict_get n (differ_changes (outer_join pa pb)) =
     if decide (ha = hb) then None
     else Some (Change Modified (Some ha) (Some hb))) as Hboth.
  { intros fa fb n ha hb Hfa Hfb Ena Enb Eha Ehb.
    destruct (merged_slot _ _ _ _ _ _ _ Ea Hnda Hfa Ena) as (c & Ec & El).
    destruct (merged_slot _ _ _ _ _ _ _ Eb Hndb Hfb Enb) as (c' & Ec' & El').
    rewrite report_outer_join, El, El'.
    - assert (c = ha) as -> by congruence.
      assert (c' = hb) as -> by congruence.
      unfold classify. simpl.
      destruct (String.eqb_spec ha hb), (decide (ha = hb)); done.
    - left. apply last_named_is_Some. by rewrite El. }
  split_and!; [| |done|].
  - intros f n h Hf En Eh Hn.
    destruct (merged_slot _ _ _ _ _ _ _ Ea Hnda Hf En) as (c & Ec & El).
    assert (last_named n pb = None) as El'.
    { apply eq_None_not_Some. by rewrite last_named_is_Some. }
    rewrite report_outer_join, El, El'; [unfold classify; simpl; congruence|].
    left. apply last_named_is_Some. by rewrite El.
  - intros f n h Hf En Eh Hn.
    destruct (merged_slot _ _ _ _ _ _ _ Eb Hndb Hf En) as (c & Ec & El).
    assert (last_named n pa = None) as El'.
    { apply eq_None_not_Some. by rewrite last_named_is_Some. }
    rewrite report_outer_join, El, El'; [unfold classify; simpl; congruence|].
    right. apply last_named_is_Some. by rewrite El.
  - intros fa fb n content Hfa Hfb Ena Enb Eoa Eob.
    rewrite (Hboth fa fb n (hexdigest (hash_loop CHUNK md5 content))
                           (hexdigest (hash_loop CHUNK md5 content)));
      try done; try (unfold calc_md5; by rewrite ?Eoa, ?Eob).
    by rewrite decide_True.
Qed.

End report.

Lemma report_for_each_file_witness :
  get_file_hashes (H := echo_hash) example_fs example_files_a example_files_b
    [["A"]; ["B"]] = Ok example_merged /\
  dict_get "sub/d.bin" (differ_changes example_merged) =
    Some (Change Removed (Some "5") None).
Proof.
  split; [vm_compute; reflexivity|].
  apply (proj1 (report_for_each_file (H := echo_hash) example_fs
           example_files_a example_files_b [["A"]; ["B"]] example_merged
           ["a.bin"; "b.bin"; "sub/d.bin"] ["c.bin"; "b.bin"; "a.bin"]
           ltac:(vm_compute; reflexivity) eq_refl eq_refl
           ltac:(apply (bool_decide_unpack _); vm_compute; exact I)
           ltac:(apply (bool_decide_unpack _); vm_compute; exact I))
         ["A"; "sub"; "d.bin"] "sub/d.bin" "5").
  - do 2 right. left.
  - reflexivity.
  - reflexivity.
  - apply (bool_decide_unpack _). vm_compute. exact I.
Defined.

(** ** Comparing a tree with itself, and comparing the other way round *)

Section symmetry.
Context {H : StreamHash}.

(** X10. When both roots name the same directory, a run that ends normally
    prints the empty dictionary: every file has the same checksum in both
    slots, and nothing is reported. *)
Theorem same_root_reports_nothing (fuel : nat) (fs : node)
  (a0 a1 a2 : string) (out out' : list printed) :
  Path_of_str a1 = Path_of_str a2 ->
  program fuel fs [a0; a1; a2] out = Some (out', Ok tt) ->
  out' = out ++ [Pretty []].
Proof.
  intros Hsame. unfold program. rewrite decide_False by (simpl; lia).
  unfold main, lift, lift_fuel, differ, pprint, index, mbind, io_bind. simpl.
  rewrite <- Hsame. set (root := Path_of_str a1).
  destruct (walk fuel fs root) as [[files|]|]; simpl; [|done..].
  destruct (get_file_hashes fs files files [root; root]) as [d|] eqn:Ed;
    simpl; [|done].
  intros [= <-]. do 3 f_equal.
  apply get_file_hashes_Ok in Ed as (pa & pb & Ea & Eb & ->).
  rewrite (named_checksums_root fs [root; root] [root; root] 1 0) in Eb
    by done.
  assert (pb = pa) as -> by congruence.
  rewrite differ_changes_NoDup
    by (rewrite keys_outer_join; apply sorted_NoDup).
  unfold changes_of. rewrite omap_all_None; [done|].
  intros [n v] [Hn ->]%outer_join_elem. simpl.
  assert (is_Some (last_named n pa)) as [c ->].
  { apply last_named_is_Some. by destruct Hn. }
  unfold classify. simpl. by rewrite String.eqb_refl.
Qed.

Lemma changes_of_cons (n : string) (v : hashes) (d : hash_dict) :
  changes_of ((n, v) :: d) =
  match classify v with
  | Some c => (n, c) :: changes_of d
  | None => changes_of d
  end.
Proof. unfold changes_of. simpl. by destruct (classify v). Qed.

Lemma changes_of_swap (d : hash_dict) :
  (forall name h0 h1, (name, (h0, h1)) ∈ d -> is_Some h0 \/ is_Some h1) ->
  changes_of (swap_slots d) = (fun e => (e.1, mirror e.2)) <$> changes_of d.
Proof.
  induction d as [|[n [h0 h1]] d IH]; intros Hd; [done|].
  change (swap_slots ((n, (h0, h1)) :: d))
    with ((n, (h1, h0)) :: swap_slots d).
  rewrite !changes_of_cons.
  rewrite IH by (intros ????; eapply Hd; by right).
  destruct (Hd n h0 h1) as [[x ->]|[y ->]]; [left|..];
    unfold classify; simpl.
  - destruct h1 as [y|]; simpl; [|done].
    rewrite (String.eqb_sym y x). by destruct (String.eqb x y).
  - destruct h0 as [x|]; simpl; [|done].
    rewrite (String.eqb_sym y x). by destruct (String.eqb x y).
Qed.

(** X11. Comparing the two trees the other way round gives the mirror
    image: the merged dictionary has its two slots exchanged, and every
    record of [differ] has Added and Removed, and its two hashes,
    exchanged. *)
Theorem swapping_roots_mirrors (fs : node) (a b : list Path)
  (root_a root_b : Path) (d : hash_dict) :
  get_file_hashes fs a b [root_a; root_b] = Ok d ->
  get_file_hashes fs b a [root_b; root_a] = Ok (swap_slots d) /\
  differ_changes (swap_slots d) =
    (fun e => (e.1, mirror e.2)) <$> differ_changes d.
Proof.
  intros (pa & pb & Ea & Eb & ->)%get_file_hashes_Ok.
  assert (swap_slots (outer_join pa pb) = outer_join pb pa) as Hswap.
  { unfold swap_slots, outer_join. rewrite <- list_fmap_compose.
    by rewrite (comm_L (∪) (list_to_set pa.*1)). }
  assert (NoDup (keys (outer_join pa pb))) as Hnd.
  { rewrite keys_outer_join. apply sorted_NoDup. }
  split.
  - rewrite Hswap. apply get_file_hashes_total.
    + by rewrite (named_checksums_root fs _ [root_a; root_b] 0 1).
    + by rewrite (named_checksums_root fs _ [root_a; root_b] 1 0).
  - rewrite !differ_changes_NoDup;
      [|done|unfold swap_slots; by rewrite keys_fmap_value].
    apply changes_of_swap.
    intros name h0 h1 [Hn [= -> ->]]%outer_join_elem.
    by rewrite <- !last_named_is_Some in Hn.
Qed.

End symmetry.

Lemma same_root_reports_nothing_witness :
  Path_of_str "A" = Path_of_str "./A/" /\
  program (H := fnv1a) 4 example_fs ["firmware_diff.py"; "A"; "./A/"] [] =
    Some ([Pretty []], Ok tt) /\
  [Pretty []] = [] ++ [Pretty []].
Proof.
  split; [reflexivity|]. split; [vm_compute; reflexivity|].
  apply (same_root_reports_nothing (H := fnv1a) 4 example_fs
           "firmware_diff.py" "A" "./A/" [] [Pretty []]);
    [reflexivity|vm_compute; reflexivity].
Defined.

Lemma swapping_roots_mirrors_witness :
  get_file_hashes (H := echo_hash) example_fs example_files_a example_files_b
    [["A"]; ["B"]] = Ok example_merged /\
  get_file_hashes (H := echo_hash) example_fs example_files_b example_files_a
    [["B"]; ["A"]] = Ok (swap_slots example_merged) /\
  differ_changes (swap_slots example_merged) =
    (fun e => (e.1, mirror e.2)) <$> differ_changes example_merged.
Proof.
  split; [vm_compute; reflexivity|].
  apply (swapping_roots_mirrors (H := echo_hash) example_fs
           example_files_a example_files_b ["A"] ["B"] example_merged).
  vm_compute. reflexivity.
Defined.

(** ** [differ] on any dictionary *)

(** X12. On any dictionary with distinct keys, [differ] stores under a name
    the classification of its entry and nothing under other names, in the
    order of the dictionary.  The first test looks at the first slot only:
    an entry whose first slot is [None] is reported Added whatever the
    second slot holds, also when it holds [None] too. *)
Theorem differ_on_any_dictionary (d : hash_dict) :
  NoDup (keys d) ->
  keys (differ_changes d) `sublist_of` keys d /\
  (forall name v, (name, v) ∈ d ->
     dict_get name (differ_changes d) = classify v) /\
  (forall name, name ∉ keys d -> dict_get name (differ_changes d) = None) /\
  (forall name h1, (name, (None, h1)) ∈ d ->
     dict_get name (differ_changes d) = Some (Change Added None h1)).
Proof.
  intros Hnd. rewrite differ_changes_NoDup by done.
  assert (forall name v, (name, v) ∈ d ->
            dict_get name (changes_of d) = classify v) as Hcls.
  { intros name v Hin. rewrite dict_get_changes_of by done.
    by rewrite (dict_get_NoDup name v). }
  split_and!; [apply keys_changes_of_sublist|done| |].
  - intros name Hn. apply dict_get_fresh. intros Hin.
    by apply Hn, keys_changes_of_elem.
  - intros name h1 Hin. by rewrite (Hcls name (None, h1)).
Qed.

Lemma differ_on_any_dictionary_witness :
  NoDup (keys [("x", (@None string, @None string));
               ("y", (Some "1", Some "1"))]) /\
  dict_get "x" (differ_changes [("x", (None, None));
                                ("y", (Some "1", Some "1"))]) =
    Some (Change Added None None).
Proof.
  split; [apply (bool_decide_unpack _); vm_compute; exact I|].
  apply (differ_on_any_dictionary
           [("x", (None, None)); ("y", (Some "1", Some "1"))]).
  - apply (bool_decide_unpack _). vm_compute. exact I.
  - left.
Defined.

(** ** The lists given to [get_file_hashes] *)

Section lists.
Context {H : StreamHash}.

(** X13. [get_file_hashes] does not rely on the order of its two lists: when
    the names of each list are distinct, any reordering of the lists gives
    the same dictionary. *)
Theorem get_file_hashes_ignores_list_order (fs : node)
  (a a' b b' : list Path) (roots : list Path) (d : hash_dict)
  (names_a names_b : list string) :
  get_file_hashes fs a b roots = Ok d ->
  comprehension (file_name roots 0) a = Ok names_a ->
  comprehension (file_name roots 1) b = Ok names_b ->
  NoDup names_a -> NoDup names_b ->
  a ≡ₚ a' -> b ≡ₚ b' ->
  get_file_hashes fs a' b' roots = Ok d.
Proof.
  intros (pa & pb & Ea & Eb & ->)%get_file_hashes_Ok Hna Hnb Hnda Hndb Ha Hb.
  rewrite (named_checksums_names _ _ _ _ _ Ea) in Hna.
  rewrite (named_checksums_names _ _ _ _ _ Eb) in Hnb.
  injection Hna as <-. injection Hnb as <-.
  pose proof (comprehension_Permutation
    (fun file => checksum ← calc_md5 fs file;
                 name ← file_name roots 0 file; Ok (name, checksum))
    a a' Ha) as Hpa.
  pose proof (comprehension_Permutation
    (fun file => checksum ← calc_md5 fs file;
                 name ← file_name roots 1 file; Ok (name, checksum))
    b b' Hb) as Hpb.
  fold (named_checksums fs roots 0 a) (named_checksums fs roots 0 a') in Hpa.
  fold (named_checksums fs roots 1 b) (named_checksums fs roots 1 b') in Hpb.
  rewrite Ea in Hpa. rewrite Eb in Hpb.
  destruct (named_checksums fs roots 0 a') as [pa'|] eqn:Ea'; [|done].
  destruct (named_checksums fs roots 1 b') as [pb'|] eqn:Eb'; [|done].
  simpl in Hpa, Hpb.
  rewrite (get_file_hashes_total _ _ _ _ _ _ Ea' Eb'). f_equal. symmetry.
  apply outer_join_Permutation; [done|done|..]; by apply NoDup_functional.
Qed.

Lemma comprehension_Raise {A B : Type} (f : A -> res B) (l : list A)
  (e : exn) :
  (forall x, x ∈ l -> is_ok (f x) = true \/ f x = Raise e) ->
  (exists x, x ∈ l /\ f x = Raise e) ->
  comprehension f l = Raise e.
Proof.
  induction l as [|x l IH]; intros Hall (x0 & Hin & E0); simpl.
  - by apply elem_of_nil in Hin.
  - destruct (Hall x) as [Hx| ->]; [left| |done].
    destruct (f x) as [y|] eqn:Ex; [|done]. simpl.
    apply elem_of_cons in Hin as [->|Hin]; [congruence|].
    rewrite IH; [done| |by exists x0].
    intros x' ?. apply Hall. by right.
Qed.

Lemma file_name_cases (root_a root_b : Path) (i : nat) (f : Path) :
  i < 2 ->
  is_ok (file_name [root_a; root_b] i f) = true \/
  file_name [root_a; root_b] i f = Raise ValueError.
Proof.
  intros Hi. unfold file_name, index.
  destruct i as [|[|i]]; [| |lia]; simpl.
  - assert (forall root file, is_ok (relative_to file root) = true \/
                              relative_to file root = Raise ValueError) as Hr.
    { induction root as [|r root IH]; intros [|x file]; simpl; auto.
      destruct (String.eqb r x); auto. }
    destruct (Hr root_a f) as [Hok| ->]; [|by right].
    left. by destruct (relative_to f root_a).
  - assert (forall root file, is_ok (relative_to file root) = true \/
                              relative_to file root = Raise ValueError) as Hr.
    { induction root as [|r root IH]; intros [|x file]; simpl; auto.
      destruct (String.eqb r x); auto. }
    destruct (Hr root_b f) as [Hok| ->]; [|by right].
    left. by destruct (relative_to f root_b).
Qed.

(** X14. The names of all files of both lists are computed before any file
    is opened: a file that does not lie under its root makes
    [get_file_hashes] raise [ValueError], whatever the tree holds and
    whether or not the other files could be hashed. *)
Theorem file_outside_root_is_a_ValueError (fs : node) (a b : list Path)
  (root_a root_b : Path) :
  (exists f, f ∈ a /\ relative_to f root_a = Raise ValueError) \/
  (exists f, f ∈ b /\ relative_to f root_b = Raise ValueError) ->
  get_file_hashes fs a b [root_a; root_b] = Raise ValueError.
Proof.
  set (roots := [root_a; root_b]). intros Hout. unfold get_file_hashes.
  assert (forall i root l, roots !! i = Some root -> i < 2 ->
            (exists f, f ∈ l /\ relative_to f root = Raise ValueError) ->
            comprehension (file_name roots i) l = Raise ValueError) as Hraise.
  { intros i root l Hroot Hi (f & Hf & Ef). apply comprehension_Raise.
    - intros x _. by apply file_name_cases.
    - exists f. split; [done|]. unfold file_name, index.
      rewrite Hroot. simpl. by rewrite Ef. }
  destruct (comprehension (file_name roots 0) a) as [na|ea] eqn:Ena.
  - destruct Hout as [Ha|Hb].
    + rewrite (Hraise 0 root_a a) in Ena; [done|done|lia|done].
    + simpl. by rewrite (Hraise 1 root_b b); [|done|lia|done].
  - simpl. f_equal.
    assert (forall l, comprehension (file_name roots 0) l = Raise ea ->
                      ea = ValueError) as Hea; [|by eapply Hea].
    induction l as [|x l IH]; simpl; [done|].
    destruct (file_name_cases root_a root_b 0 x) as [Hok|Ex]; [lia| |].
    + fold roots in Hok. destruct (file_name roots 0 x); [|done]. simpl.
      destruct (comprehension (file_name roots 0) l); [done|].
      simpl. intros [= <-]. by apply IH.
    + fold roots in Ex. rewrite Ex. simpl. congruence.
Qed.

End lists.

Lemma get_file_hashes_ignores_list_order_witness :
  get_file_hashes (H := echo_hash) example_fs example_files_a example_files_b
    [["A"]; ["B"]] = Ok example_merged /\
  example_files_a ≡ₚ reverse example_files_a /\
  example_files_b ≡ₚ reverse example_files_b /\
  get_file_hashes (H := echo_hash) example_fs (reverse example_files_a)
    (reverse example_files_b) [["A"]; ["B"]] = Ok example_merged.
Proof.
  split; [vm_compute; reflexivity|].
  split; [symmetry; apply reverse_Permutation|].
  split; [symmetry; apply reverse_Permutation|].
  apply (get_file_hashes_ignores_list_order (H := echo_hash) example_fs
           example_files_a (reverse example_files_a)
           example_files_b (reverse example_files_b) [["A"]; ["B"]]
           example_merged
           ["a.bin"; "b.bin"; "sub/d.bin"] ["c.bin"; "b.bin"; "a.bin"]);
    [vm_compute; reflexivity|reflexivity|reflexivity
    |apply (bool_decide_unpack _); vm_compute; exact I
    |apply (bool_decide_unpack _); vm_compute; exact I
    |symmetry; apply reverse_Permutation
    |symmetry; apply reverse_Permutation].
Defined.

Lemma file_outside_root_is_a_ValueError_witness :
  relative_to ["B"; "c.bin"] ["A"] = Raise ValueError /\
  get_file_hashes (H := echo_hash) locked_fs [["B"; "c.bin"]] [] [["A"]; ["B"]]
    = Raise ValueError.
Proof.
  split; [reflexivity|].
  apply (file_outside_root_is_a_ValueError (H := echo_hash) locked_fs
           [["B"; "c.bin"]] [] ["A"] ["B"]).
  left. exists ["B"; "c.bin"]. split; [left|reflexivity].
Defined.
